(** * Verification of the event scanner of coin_balance (src/event_filter.py)

    Shallow embedding of the parts of [event_filter.py] that decide the
    behaviour of a scan: the retry-and-shrink loop [_retry_web3_call],
    the chunk sizer [EventScanner.estimate_next_chunk_size], the
    creation-block locator [get_contract_creation_block], the segment
    splitter [taskCreator], the per-segment loop [asincScan], the chunk
    reader [EventScanner.scan_chunk], the in-memory state
    [JSONifiedState] and the driver [filter.run]; and the balance replay
    of [src/test_parse.py].

    Conventions.
    - Block heights, sizes and Python ints are [Z]; Python's [//] is
      [Z.div] (both round toward minus infinity).
    - Python loops that always terminate are written with a fuel
      argument; running out of fuel is a separate, visible outcome.
    - A node call is a Rocq function; a raised exception is an error
      constructor of the result type. *)

From Stdlib Require Import ZArith Lia.
From stdpp Require Import base gmap strings list.

Open Scope Z_scope.

(** ** Retry-and-shrink: [_retry_web3_call] (event_filter.py 293-325) *)

Module Retry.

(** Outcome of one call [func(start_block, end_block)]: it returns the
    decoded logs or raises an exception [e]. *)
Inductive fetch_result (A E : Type) : Type :=
| FOk (logs : A)
| FErr (e : E).
Arguments FOk {A E} logs.
Arguments FErr {A E} e.

(** What [_retry_web3_call] hands back to its caller: the pair
    [(end_block, logs)], the re-raised exception, or Python's implicit
    [None] when [range(retries)] is empty. *)
Inductive retry_outcome (A E : Type) : Type :=
| RetOk (end_block : Z) (logs : A)
| RetRaise (e : E)
| RetNone.
Arguments RetOk {A E} end_block logs.
Arguments RetRaise {A E} e.
Arguments RetNone {A E}.

(** The observable actions of the loop: a call of [func], a
    [logger.warning] naming the range and the error, a [time.sleep],
    and the final "Out of retries" warning. *)
Inductive action (E D : Type) : Type :=
| ACall (from_block to_block : Z)
| AWarn (from_block to_block : Z) (e : E)
| ASleep (delay : D)
| AOutOfRetries.
Arguments ACall {E D} from_block to_block.
Arguments AWarn {E D} from_block to_block e.
Arguments ASleep {E D} delay.
Arguments AOutOfRetries {E D}.

Section RetryLoop.
Context {A E D : Type}.

(** The node may answer differently at each attempt, so [func] also
    receives the attempt number [i]. *)
Variable func : nat -> Z -> Z -> fetch_result A E.

(** [for i in range(retries)]: [fuel] is the number of iterations left,
    [retries - i]. *)
Fixpoint retry_loop (start_block end_block : Z) (retries : nat) (delay : D)
    (i fuel : nat) : retry_outcome A E * list (action E D) :=
  match fuel with
  | O => (RetNone, [])
  | S fuel' =>
      match func i start_block end_block with
      | FOk logs => (RetOk end_block logs, [ACall start_block end_block])
      | FErr e =>
          if Nat.ltb i (retries - 1) then
            let end_block' := start_block + (end_block - start_block) / 2 in
            let '(o, tr) := retry_loop start_block end_block' retries delay (S i) fuel' in
            (o, ACall start_block end_block :: AWarn start_block end_block e
                  :: ASleep delay :: tr)
          else (RetRaise e, [ACall start_block end_block; AOutOfRetries])
      end
  end.

Definition retry_web3_call (start_block end_block : Z) (retries : nat) (delay : D)
    : retry_outcome A E * list (action E D) :=
  retry_loop start_block end_block retries delay 0 retries.

End RetryLoop.

(** One shrink step, [end_block = start_block + ((end_block - start_block) // 2)],
    and its [k]-fold iterate: the range end used at attempt [k]. *)
Definition halve (start_block end_block : Z) : Z :=
  start_block + (end_block - start_block) / 2.

Fixpoint shrunk (start_block end_block : Z) (k : nat) : Z :=
  match k with
  | O => end_block
  | S k' => shrunk start_block (halve start_block end_block) k'
  end.

(** The actions of the failed attempts [0 .. k-1], given the errors
    [errs j] they raised. *)
Fixpoint failed_attempts {E D : Type} (start_block end_block : Z) (delay : D)
    (errs : nat -> E) (k : nat) : list (action E D) :=
  match k with
  | O => []
  | S k' =>
      ACall start_block end_block :: AWarn start_block end_block (errs O)
        :: ASleep delay
        :: failed_attempts start_block (halve start_block end_block) delay
             (fun j => errs (S j)) k'
  end.

(** Number of node calls in a trace. *)
Fixpoint count_calls {E D : Type} (tr : list (action E D)) : nat :=
  match tr with
  | [] => O
  | ACall _ _ :: tr' => S (count_calls tr')
  | _ :: tr' => count_calls tr'
  end.

(** A node that accepts exactly the queries spanning at most [W] blocks
    (inclusive range [to - from + 1 <= W]) and fails the others. *)
Definition width_oracle {A E : Type} (W : Z) (logs : A) (err : E)
    : nat -> Z -> Z -> fetch_result A E :=
  fun _ from_block to_block =>
    if to_block - from_block + 1 <=? W then FOk logs else FErr err.

(** A node that fails the first [n] attempts and answers from then on. *)
Definition fail_first {A E : Type} (n : nat) (logs : A) (err : E)
    : nat -> Z -> Z -> fetch_result A E :=
  fun i _ _ => if Nat.ltb i n then FErr err else FOk logs.

End Retry.

(** ** Scanner configuration and chunk sizer *)

Module Scanner.

(** [MAX_CHUNK_SIZE = 1000] (event_filter.py 27). *)
Definition MAX_CHUNK_SIZE : Z := 1000.

(** The throttling fields of an [EventScanner] (event_filter.py 93-104).
    [request_retry_seconds] is the float [12.0]; it is only passed to
    [time.sleep], so it is kept as a whole number of seconds. *)
Record EventScanner := {
  min_scan_chunk_size : Z;
  max_scan_chunk_size : Z;
  max_request_retries : nat;
  request_retry_seconds : Z
}.

(** [EventScanner.__init__]: [min_scan_chunk_size] is fixed to 10,
    [max_request_retries] and [request_retry_seconds] default to 4 and 12. *)
Definition make_scanner (max_chunk_scan_size : Z) : EventScanner := {|
  min_scan_chunk_size := 10;
  max_scan_chunk_size := max_chunk_scan_size;
  max_request_retries := 4;
  request_retry_seconds := 12
|}.

(** The scanner built by [filter.run]: [max_chunk_scan_size=MAX_CHUNK_SIZE]. *)
Definition run_scanner : EventScanner := make_scanner MAX_CHUNK_SIZE.

(** *** Python numbers on the sizer's path

    [current_chuck_size *= 2.0] turns the int into a float:
    [float(current)] rounds to 53 significant bits (half to even) and
    raises [OverflowError] when the rounded value reaches [2^1024];
    multiplying by [2.0] is exact or gives an infinity.  Every finite
    float on this path is a whole number, so it is kept as its [Z]
    value. *)
Inductive pyfloat : Type :=
| FFin (z : Z)
| FPosInf
| FNegInf.

Inductive pynum : Type :=
| PInt (z : Z)
| PFloat (f : pyfloat).

(** Round an integer to the nearest double, ties to even. *)
Definition round_double (n : Z) : Z :=
  let a := Z.abs n in
  let sh := Z.log2 a - 52 in
  if sh <=? 0 then n
  else
    let q := a / 2 ^ sh in
    let r := a mod 2 ^ sh in
    let half := 2 ^ (sh - 1) in
    let q' := if (half <? r) || ((r =? half) && Z.odd q) then q + 1 else q in
    Z.sgn n * (q' * 2 ^ sh).

(** [float(n)]; [None] is the [OverflowError]. *)
Definition float_of_int (n : Z) : option pyfloat :=
  let r := round_double n in
  if 2 ^ 1024 <=? Z.abs r then None else Some (FFin r).

(** [f * 2.0]. *)
Definition fmul2 (f : pyfloat) : pyfloat :=
  match f with
  | FFin z => if 2 ^ 1024 <=? Z.abs (2 * z) then (if 0 <? z then FPosInf else FNegInf)
              else FFin (2 * z)
  | x => x
  end.

(** [a < b] on ints and floats: Python compares them exactly. *)
Definition py_lt (a b : pynum) : bool :=
  match a, b with
  | (PInt x | PFloat (FFin x)), (PInt y | PFloat (FFin y)) => x <? y
  | PFloat FNegInf, PFloat FNegInf => false
  | PFloat FNegInf, _ => true
  | _, PFloat FPosInf => match a with PFloat FPosInf => false | _ => true end
  | _, _ => false
  end.

(** Builtin [max(a, b)] and [min(a, b)]: the first argument is kept
    unless the second is strictly larger (smaller). *)
Definition py_max (a b : pynum) : pynum := if py_lt a b then b else a.
Definition py_min (a b : pynum) : pynum := if py_lt b a then b else a.

(** [int(x)]; an infinity raises [OverflowError] ([None]). *)
Definition py_int (x : pynum) : option Z :=
  match x with
  | PInt z | PFloat (FFin z) => Some z
  | PFloat _ => None
  end.

(** [EventScanner.estimate_next_chunk_size] (event_filter.py 208-235),
    with [chunk_size_increase = 2.0]; [None] is an [OverflowError]. *)
Definition estimate_next_chunk_size (sc : EventScanner)
    (current_chuck_size : Z) (event_found_count : nat) : option Z :=
  let current_chuck_size :=
    if Nat.ltb 0 event_found_count then Some (PInt (min_scan_chunk_size sc))
    else match float_of_int current_chuck_size with
         | Some f => Some (PFloat (fmul2 f))
         | None => None
         end in
  match current_chuck_size with
  | None => None
  | Some current_chuck_size =>
      let current_chuck_size := py_max (PInt (min_scan_chunk_size sc)) current_chuck_size in
      let current_chuck_size := py_min (PInt (max_scan_chunk_size sc)) current_chuck_size in
      py_int current_chuck_size
  end.

(** The sizes the sizer produces along a run of chunks with the given
    event counts, starting from [size]; [None] if it raises. *)
Fixpoint sizes (sc : EventScanner) (size : Z) (counts : list nat) : option (list Z) :=
  match counts with
  | [] => Some []
  | c :: counts' =>
      match estimate_next_chunk_size sc size c with
      | None => None
      | Some size' =>
          match sizes sc size' counts' with
          | None => None
          | Some l => Some (size' :: l)
          end
      end
  end.

(** ** Creation-block locator: [get_contract_creation_block]
    (event_filter.py 391-403)

    [has_code h] is [get_code(contract_address, h).hex() != '0x'].  The
    Python function recurses without a base case other than the hit, so
    the recursion is given [fuel]; [None] means that it has not returned
    after [fuel] nested calls.  [count] is the recursion depth the source
    threads through (and logs). *)
Fixpoint get_contract_creation_block (fuel : nat) (has_code : Z -> bool)
    (blocknumber_from blocknumber_to : Z) (count : nat) : option Z :=
  match fuel with
  | O => None
  | S fuel' =>
      let middle_block := (blocknumber_from + blocknumber_to) / 2 in
      let n_minus_one_is_contract := has_code (middle_block - 1) in
      let n_is_contract := has_code middle_block in
      if n_is_contract && negb n_minus_one_is_contract then Some middle_block
      else if n_is_contract && n_minus_one_is_contract then
        get_contract_creation_block fuel' has_code blocknumber_from middle_block (S count)
      else
        get_contract_creation_block fuel' has_code middle_block blocknumber_to (S count)
  end.

(** A has-code predicate that is monotone in the height. *)
Definition monotone (has_code : Z -> bool) : Prop :=
  forall x y, x <= y -> has_code x = true -> has_code y = true.

(** Code present from height [c] on. *)
Definition code_from (c : Z) : Z -> bool := fun h => c <=? h.

(** ** Segment splitter: [taskCreator] (event_filter.py 276-285)

    The [while] loop adds [MAX_CHUNK_SIZE] to [cursor_b] at each turn, so
    [Z.to_nat (end_b - start_b) + 1] turns of fuel are always enough. *)
Fixpoint segments_loop (fuel : nat) (cursor_b end_b : Z) : list (Z * Z) :=
  match fuel with
  | O => []
  | S fuel' =>
      if cursor_b + MAX_CHUNK_SIZE <? end_b then
        (cursor_b, cursor_b + MAX_CHUNK_SIZE - 1)
          :: segments_loop fuel' (cursor_b + MAX_CHUNK_SIZE) end_b
      else [(cursor_b, end_b)]
  end.

Definition task_segments (start_b end_b : Z) : list (Z * Z) :=
  segments_loop (Z.to_nat (end_b - start_b) + 1) start_b end_b.

(** [segs] splits [[cursor, end_b]]: contiguous, the first starts at
    [cursor], the last ends at [end_b], every segment but the last has
    [MAX_CHUNK_SIZE] blocks and the last between 1 and
    [MAX_CHUNK_SIZE + 1]. *)
Fixpoint partition_ok (segs : list (Z * Z)) (cursor end_b : Z) : Prop :=
  match segs with
  | [] => False
  | [(a, b)] => a = cursor /\ b = end_b /\ 1 <= b - a + 1 <= MAX_CHUNK_SIZE + 1
  | (a, b) :: rest =>
      a = cursor /\ b - a + 1 = MAX_CHUNK_SIZE /\ partition_ok rest (b + 1) end_b
  end.

End Scanner.

(** ** Scan cycle: [JSONifiedState], [scan_chunk], [asincScan], [scan], [run] *)

Module Scan.
Import Retry Scanner.

(** A decoded [Transfer] event as [get_event_data] returns it. *)
Record raw_log := {
  blockNumber : Z;
  transactionHash : string;
  transactionIndex : Z;
  logIndex : option Z;          (* [None] for a log of a pending block *)
  arg_from : string;
  arg_to : string;
  arg_value : Z
}.

(** The entry [JSONifiedState.process_event] stores; [timestamp] is
    [block_when.isoformat()], kept as the block time in seconds. *)
Record transfer := {
  t_from : string;
  t_to : string;
  t_value : Z;
  t_timestamp : Z
}.

(** [self.state]: [state["blocks"][block_number][txhash][log_index]]. *)
Record JSONifiedState := {
  last_scanned_block : Z;
  blocks : gmap Z (gmap string (gmap (option Z) transfer))
}.

(** The value [process_event] returns, [f"{block_number}-{txhash}-{log_index}"],
    kept as the triple it is built from. *)
Definition event_key : Type := (Z * string * option Z)%type.

(** Exceptions that end a scan.  [ErrRPC] is the node error re-raised by
    [_retry_web3_call]; [ErrUnpackNone] the [TypeError] of unpacking its
    [None]; [ErrPendingBlock] the [AssertionError] on a [None] log index;
    [ErrIsoformatNone] the [AttributeError] of [None.isoformat()];
    [ErrAssertRange] the [assert start_block <= end_block] of [scan];
    [ErrBlockNotFound] a [BlockNotFound] raised outside
    [get_block_timestamp]; [ErrOverflow] the [OverflowError] of the chunk
    sizer. *)
Inductive scan_error (E : Type) : Type :=
| ErrRPC (e : E)
| ErrUnpackNone
| ErrPendingBlock
| ErrIsoformatNone
| ErrAssertRange
| ErrBlockNotFound
| ErrOverflow.
Arguments ErrRPC {E} e.
Arguments ErrUnpackNone {E}.
Arguments ErrPendingBlock {E}.
Arguments ErrIsoformatNone {E}.
Arguments ErrAssertRange {E}.
Arguments ErrBlockNotFound {E}.
Arguments ErrOverflow {E}.

Section Cycle.
Context {E : Type}.

(** [JSONifiedState.process_event] (event_filter.py 485-521).  The
    [transfer] dict is built first, so [None.isoformat()] raises before
    any write.  The two "create the dict if missing" steps followed by the
    write of [log_index] leave the same nested map as the single update
    below. *)
Definition process_event (st : JSONifiedState) (block_when : option Z)
    (event : raw_log) : scan_error E + (JSONifiedState * event_key) :=
  match block_when with
  | None => inl ErrIsoformatNone
  | Some when =>
      let log_index := logIndex event in
      let txhash := transactionHash event in
      let block_number := blockNumber event in
      let tr := {| t_from := arg_from event; t_to := arg_to event;
                   t_value := arg_value event; t_timestamp := when |} in
      let block := default ∅ (blocks st !! block_number) in
      let txs := default ∅ (block !! txhash) in
      inr ({| last_scanned_block := last_scanned_block st;
              blocks := <[block_number := <[txhash := <[log_index := tr]> txs]> block]>
                          (blocks st) |},
           (block_number, txhash, log_index))
  end.

(** Processing a list of events one after the other. *)
Fixpoint process_all (st : JSONifiedState) (evs : list (option Z * raw_log))
    : scan_error E + JSONifiedState :=
  match evs with
  | [] => inr st
  | (w, ev) :: evs' =>
      match process_event st w ev with
      | inl err => inl err
      | inr (st', _) => process_all st' evs'
      end
  end.

(** The node: [get_block(h)["timestamp"]], [None] when it raises
    [BlockNotFound]. *)
Variable header : Z -> option Z.
(** The node's [eth_get_logs] as seen through [_fetch_events], at
    attempt [i]. *)
Variable get_logs : nat -> Z -> Z -> fetch_result (list raw_log) E.

(** [get_block_when]: the per-[scan_chunk] cache [block_timestamps] in
    front of [get_block_timestamp], which turns [BlockNotFound] into
    [None] (event_filter.py 110-119, 160-163). *)
Definition get_block_when (block_timestamps : gmap Z (option Z)) (block_num : Z)
    : option Z * gmap Z (option Z) :=
  match block_timestamps !! block_num with
  | Some w => (w, block_timestamps)
  | None => let w := header block_num in (w, <[block_num := w]> block_timestamps)
  end.

(** The [for evt in events] loop of [scan_chunk]. *)
Fixpoint process_events (block_timestamps : gmap Z (option Z)) (st : JSONifiedState)
    (events : list raw_log)
    : scan_error E + (gmap Z (option Z) * JSONifiedState * list event_key) :=
  match events with
  | [] => inr (block_timestamps, st, [])
  | evt :: events' =>
      match logIndex evt with
      | None => inl ErrPendingBlock
      | Some _ =>
          let '(block_when, block_timestamps') :=
            get_block_when block_timestamps (blockNumber evt) in
          match process_event st block_when evt with
          | inl err => inl err
          | inr (st', processed) =>
              match process_events block_timestamps' st' events' with
              | inl err => inl err
              | inr (c, st'', all_processed) => inr (c, st'', processed :: all_processed)
              end
          end
      end
  end.

(** [EventScanner.scan_chunk] (event_filter.py 147-206), for the single
    event type [Transfer] that [filter.run] registers: it returns
    [(end_block, end_block_timestamp, all_processed)] and the new state. *)
Definition scan_chunk (sc : EventScanner) (st : JSONifiedState)
    (start_block end_block : Z)
    : scan_error E + (Z * option Z * list event_key * JSONifiedState) :=
  match fst (retry_web3_call get_logs start_block end_block
               (max_request_retries sc) (request_retry_seconds sc)) with
  | RetNone => inl ErrUnpackNone
  | RetRaise e => inl (ErrRPC e)
  | RetOk end_block events =>
      match process_events ∅ st events with
      | inl err => inl err
      | inr (block_timestamps, st', all_processed) =>
          let '(end_block_timestamp, _) := get_block_when block_timestamps end_block in
          inr (end_block, end_block_timestamp, all_processed, st')
      end
  end.

(** Result of a segment task or of a whole [scan]: the state, the
    entries appended to [self.all_processed] and the chunk ranges
    [(current_block, estimated_end_block)] passed to [scan_chunk]. *)
Inductive scan_result : Type :=
| ScanOk (st : JSONifiedState) (all_processed : list event_key) (chunks : list (Z * Z))
| ScanFailed (err : scan_error E)
| ScanOutOfFuel.

(** [asincScan] (event_filter.py 247-274).  [self.state.end_chunk] is an
    [async def] called without [await]: the coroutine is created and
    dropped, so it has no effect on the state. *)
Fixpoint asinc_scan (fuel : nat) (sc : EventScanner) (st : JSONifiedState)
    (all_processed : list event_key) (chunks : list (Z * Z))
    (current_block end_b chunk_size : Z) : scan_result :=
  match fuel with
  | O => ScanOutOfFuel
  | S fuel' =>
      if current_block <=? end_b then
        let estimated_end_block := current_block + chunk_size in
        let chunks' := chunks ++ [(current_block, estimated_end_block)] in
        match scan_chunk sc st current_block estimated_end_block with
        | inl err => ScanFailed err
        | inr (actual_end_block, _, new_entries, st') =>
            let current_end := actual_end_block in
            match estimate_next_chunk_size sc chunk_size (length new_entries) with
            | None => ScanFailed ErrOverflow
            | Some chunk_size =>
                let chunk_size := if chunk_size <=? MAX_CHUNK_SIZE then chunk_size
                                  else MAX_CHUNK_SIZE in
                asinc_scan fuel' sc st' (all_processed ++ new_entries) chunks'
                  (current_end + 1) end_b chunk_size
            end
        end
      else ScanOk st all_processed chunks
  end.

(** [asyncio.gather] over the segment tasks, modelled by one schedule:
    each task runs to completion before the next one starts.  asyncio may
    interleave the tasks at every [await]; the tasks share only the state
    dict and the [all_processed] list, and each task's own sequence of
    ranges depends only on its locals and the node's answers.  So when
    every task completes, the set of ranges queried and the entries stored
    are the same under every schedule, but the order of [chunks] and [all_processed] across tasks
    is this schedule's only: the properties proved below state order only
    within one task ([asinc_scan]) and membership for the whole scan. *)
Fixpoint run_tasks (sc : EventScanner) (st : JSONifiedState)
    (all_processed : list event_key) (chunks : list (Z * Z))
    (segs : list (Z * Z)) (start_chunk : Z) : scan_result :=
  match segs with
  | [] => ScanOk st all_processed chunks
  | (start, stop) :: segs' =>
      match asinc_scan (Z.to_nat (stop - start) + 1) sc st all_processed chunks
              start stop start_chunk with
      | ScanOk st' all_processed' chunks' =>
          run_tasks sc st' all_processed' chunks' segs' start_chunk
      | r => r
      end
  end.

(** [EventScanner.scan] with [taskCreator] (event_filter.py 237-290). *)
Definition scan (sc : EventScanner) (st : JSONifiedState)
    (start_block end_block start_chunk_size : Z) : scan_result :=
  if start_block <=? end_block then
    run_tasks sc st [] [] (task_segments start_block end_block) start_chunk_size
  else ScanFailed ErrAssertRange.

End Cycle.

End Scan.

(** ** The driver [filter.run] (event_filter.py 523-612) *)

Module Run.
Import Retry Scanner Scan.

(** A document inserted into [mongo.transferEvents] (event_filter.py
    601-607); the source stores the [str] of each field. *)
Record mongo_record := {
  rec_block : Z;
  rec_tx_hash : string;
  rec_from : string;
  rec_to : string;
  rec_value : Z
}.

(** The three nested [for] loops that flatten [state.state["blocks"]]. *)
Definition records_of_state (bl : gmap Z (gmap string (gmap (option Z) transfer)))
    : list mongo_record :=
  flat_map (fun bt : Z * gmap string (gmap (option Z) transfer) =>
    let '(block_number, txs) := bt in
    flat_map (fun te : string * gmap (option Z) transfer =>
      let '(tx_hash, evs) := te in
      map (fun le : option Z * transfer =>
        let '(_, tr) := le in
        {| rec_block := block_number; rec_tx_hash := tx_hash;
           rec_from := t_from tr; rec_to := t_to tr; rec_value := t_value tr |})
        (map_to_list evs))
      (map_to_list txs))
    (map_to_list bl).

(** What [run] reads from the node. *)
Record chain (E : Type) := {
  latest : Z;                                  (* get_block('latest').number *)
  has_code : Z -> bool;                        (* get_code(address, h) != '0x' *)
  header : Z -> option Z;                      (* get_block(h).timestamp *)
  get_logs : nat -> Z -> Z -> fetch_result (list raw_log) E
}.
Arguments latest {E} c.
Arguments has_code {E} c _.
Arguments header {E} c _.
Arguments get_logs {E} c _ _ _.

(** [JSONifiedState.restore]: the stored [block_number] of the contract,
    or [reset()] (last scanned block 0) when the lookup fails. *)
Definition restore (stored : option Z) : JSONifiedState := {|
  last_scanned_block := match stored with Some b => b | None => 0 end;
  blocks := ∅
|}.

(** [cutoff_block] of [run] (event_filter.py 566-569): the stored cursor,
    or the creation block found on [[1, latest_block]] when it is 0. *)
Definition choose_cutoff (locator_fuel : nat) (has_code : Z -> bool)
    (latest_block : Z) (st : JSONifiedState) : option Z :=
  let cutoff_block := last_scanned_block st in
  if cutoff_block =? 0 then
    get_contract_creation_block locator_fuel has_code 1 latest_block 0
  else Some cutoff_block.

Inductive run_result (E : Type) : Type :=
| RunOk (scan_start scan_end : Z) (records : list mongo_record) (chunks : list (Z * Z))
| RunFailed (err : scan_error E)
| RunOutOfFuel.
Arguments RunOk {E} scan_start scan_end records chunks.
Arguments RunFailed {E} err.
Arguments RunOutOfFuel {E}.

(** [run]: restore, choose the cutoff, read the two headers it logs,
    [scanner.scan(cutoff_block, cutoff_block + MAX_CHUNK_SIZE*5+1)] and
    insert every entry of the state.  [run_result] records the scanned
    range, the inserted documents and the chunk ranges queried. *)
Definition run {E : Type} (locator_fuel : nat) (c : chain E) (stored : option Z)
    : run_result E :=
  let st := restore stored in
  let latest_block := latest c in
  match choose_cutoff locator_fuel (has_code c) latest_block st with
  | None => RunOutOfFuel
  | Some cutoff_block =>
      let end_block := latest_block - 1 in
      match header c cutoff_block, header c end_block with
      | Some _, Some _ =>
          let scan_end := cutoff_block + MAX_CHUNK_SIZE * 5 + 1 in
          match scan (header c) (get_logs c) run_scanner st cutoff_block scan_end 20 with
          | ScanOk st' _ chunks =>
              RunOk cutoff_block scan_end (records_of_state (blocks st')) chunks
          | ScanFailed err => RunFailed err
          | ScanOutOfFuel => RunOutOfFuel
          end
      | _, _ => RunFailed ErrBlockNotFound
      end
  end.

(** A node whose chain holds the logs [logs] up to height [tip]:
    [eth_get_logs] returns the logs of the mined blocks in the range. *)
Definition chain_get_logs {E : Type} (tip : Z) (logs : list raw_log)
    : nat -> Z -> Z -> fetch_result (list raw_log) E :=
  fun _ from_block to_block =>
    FOk (filter (fun l => from_block <= blockNumber l /\ blockNumber l <= to_block
                          /\ blockNumber l <= tip) logs).

End Run.

(** ** Concrete nodes used to evaluate the model *)

Module Fixtures.
Import Retry Scanner Scan Run.

(** A [Transfer] log at block [b] with transaction hash [tx], log index
    [li] and value [v]. *)
Definition transfer_log (b : Z) (tx : string) (li v : Z) : raw_log := {|
  blockNumber := b; transactionHash := tx; transactionIndex := 0;
  logIndex := Some li; arg_from := "0x7B95"; arg_to := "0x94E6"; arg_value := v
|}.

(** Headers of the mined blocks [<= tip], block time 12 s. *)
Definition headers_upto (tip : Z) : Z -> option Z :=
  fun h => if (0 <=? h) && (h <=? tip) then Some (h * 12) else None.

(** Tip at 1100, one [Transfer] in the tip block itself. *)
Definition tip_chain : chain unit := {|
  latest := 1100;
  has_code := code_from 500;
  header := headers_upto 1100;
  get_logs := chain_get_logs 1100 [transfer_log 1100 "0xab" 3 7]
|}.

(** Tip at 200; the header of block 105 is not found (a reorg detached
    it) while the node still returns a [Transfer] log of block 105. *)
Definition lost_header_chain : chain unit := {|
  latest := 200;
  has_code := code_from 50;
  header := fun h => if h =? 105 then None else headers_upto 200 h;
  get_logs := chain_get_logs 200 [transfer_log 105 "0xcd" 0 5]
|}.

(** Tip at 1000; the contract is deployed in the tip block itself and no
    cursor is stored yet. *)
Definition created_at_tip_chain : chain unit := {|
  latest := 1000;
  has_code := code_from 1000;
  header := headers_upto 1000;
  get_logs := chain_get_logs 1000 []
|}.

End Fixtures.

(** ** Observations on the scan state *)

Module ScanProps.
Import Retry Scanner Scan Run.

(** The key [process_event] returns for [ev]. *)
Definition key_of (ev : raw_log) : event_key :=
  (blockNumber ev, transactionHash ev, logIndex ev).

(** [state["blocks"][b][tx][li]], [None] when one of the lookups fails. *)
Definition stored (st : JSONifiedState) (k : event_key) : option transfer :=
  let '(b, tx, li) := k in
  match blocks st !! b with
  | Some txs => match txs !! tx with Some evs => evs !! li | None => None end
  | None => None
  end.

(** The [block_timestamps] cache only holds what the node answered. *)
Definition cache_ok (header : Z -> option Z) (c : gmap Z (option Z)) : Prop :=
  forall n w, c !! n = Some w -> w = header n.

(** Every stored transfer carries the header timestamp of its block. *)
Definition timestamps_ok (header : Z -> option Z) (st : JSONifiedState) : Prop :=
  forall b tx li tr, stored st (b, tx, li) = Some tr -> header b = Some (t_timestamp tr).

(** A strictly increasing list of heights. *)
Fixpoint ascending (l : list Z) : Prop :=
  match l with
  | a :: l' => match l' with [] => True | b :: _ => a < b /\ ascending l' end
  | [] => True
  end.

(** Chunk ranges [(from, to)] with strictly increasing starts in
    [[lo, hi]] and [from <= to]. *)
Definition chunks_ok (lo hi : Z) (cs : list (Z * Z)) : Prop :=
  ascending (map fst cs) /\ forall a b, In (a, b) cs -> lo <= a <= hi /\ a <= b.

(** What a scan step may do to the state: keep the cursor, keep the
    timestamp invariant and never drop an entry. *)
Definition state_grows (header : Z -> option Z) (st st' : JSONifiedState) : Prop :=
  last_scanned_block st' = last_scanned_block st /\
  (timestamps_ok header st -> timestamps_ok header st') /\
  (forall k, stored st k <> None -> stored st' k <> None).

(** Every stored entry with its key, in the order of the three nested
    loops of [run]. *)
Definition entries_of (bl : gmap Z (gmap string (gmap (option Z) transfer)))
    : list (event_key * transfer) :=
  flat_map (fun bt : Z * gmap string (gmap (option Z) transfer) =>
    flat_map (fun te : string * gmap (option Z) transfer =>
      map (fun lt : option Z * transfer => ((fst bt, fst te, fst lt), snd lt))
        (map_to_list (snd te)))
      (map_to_list (snd bt)))
    (map_to_list bl).

(** The document [run] builds for one entry. *)
Definition record_of (kt : event_key * transfer) : mongo_record :=
  let '((b, tx, _), tr) := kt in
  {| rec_block := b; rec_tx_hash := tx;
     rec_from := t_from tr; rec_to := t_to tr; rec_value := t_value tr |}.

End ScanProps.

(** ** Balance replay: [src/test_parse.py] (lines 41-57) *)

Module TestParse.

(** The fields the script reads from one event dict of the JSON. *)
Record event_json := {
  ev_from : string;
  ev_to : string;
  ev_value : Z
}.

(** [data['blocks']] as [json.loads] builds it: dicts keep the document
    order, so they are association lists. *)
Definition blocks_json : Type :=
  list (string * list (string * list (string * event_json))).

(** The body of the innermost loop: subtract [value] when [from] is the
    target, then add it when [to] is. *)
Definition step (addr_target : string) (start_balance : Z) (ev : event_json) : Z :=
  let start_balance :=
    if String.eqb (ev_from ev) addr_target then start_balance - ev_value ev
    else start_balance in
  if String.eqb (ev_to ev) addr_target then start_balance + ev_value ev
  else start_balance.

(** The three nested [for] loops. *)
Definition replay (addr_target : string) (start_balance : Z) (data : blocks_json) : Z :=
  fold_left (fun b0 (bt : string * list (string * list (string * event_json))) =>
    fold_left (fun b1 (te : string * list (string * event_json)) =>
      fold_left (fun b2 (ne : string * event_json) => step addr_target b2 (snd ne))
        (snd te) b1)
      (snd bt) b0)
    data start_balance.

(** The events of the document, in iteration order. *)
Definition events_of (data : blocks_json) : list event_json :=
  flat_map (fun bt : string * list (string * list (string * event_json)) =>
    flat_map (fun te : string * list (string * event_json) => map snd (snd te)) (snd bt))
    data.

(** Total value received by, and sent from, [addr]. *)
Definition incoming (addr : string) (evs : list event_json) : Z :=
  fold_right (fun ev acc => (if String.eqb (ev_to ev) addr then ev_value ev else 0) + acc) 0 evs.

Definition outgoing (addr : string) (evs : list event_json) : Z :=
  fold_right (fun ev acc => (if String.eqb (ev_from ev) addr then ev_value ev else 0) + acc) 0 evs.

End TestParse.

(** * Claims *)

Import Retry Scanner Scan Run Fixtures ScanProps TestParse.

(** ** Lemmas on the retry loop *)

Section RetryLemmas.
Context {A E D : Type}.
Variable func : nat -> Z -> Z -> fetch_result A E.

Lemma retry_loop_succeeds (s : Z) (retries : nat) (delay : D) logs :
  forall k i e fuel (errs : nat -> E),
    (i + k < retries)%nat -> fuel = (retries - i)%nat ->
    (forall j, (j < k)%nat -> func (i + j) s (shrunk s e j) = FErr (errs j)) ->
    func (i + k) s (shrunk s e k) = FOk logs ->
    retry_loop func s e retries delay i fuel =
      (RetOk (shrunk s e k) logs,
       failed_attempts s e delay errs k ++ [ACall s (shrunk s e k)]).
Proof.
  induction k as [|k IH]; intros i e fuel errs Hk Hfuel Hfail Hok.
  - destruct fuel as [|fuel]; [lia|]. simpl.
    rewrite Nat.add_0_r in Hok. simpl in Hok. rewrite Hok. reflexivity.
  - destruct fuel as [|fuel]; [lia|]. simpl.
    specialize (Hfail 0%nat ltac:(lia)) as H0.
    rewrite Nat.add_0_r in H0. simpl in H0. rewrite H0.
    assert (Hlt : Nat.ltb i (retries - 1) = true) by (apply Nat.ltb_lt; lia).
    rewrite Hlt. fold (halve s e).
    rewrite (IH (S i) (halve s e) fuel (fun j => errs (S j))); [reflexivity | lia | lia | |].
    + intros j Hj. specialize (Hfail (S j) ltac:(lia)).
      replace (S i + j)%nat with (i + S j)%nat by lia. exact Hfail.
    + replace (S i + k)%nat with (i + S k)%nat by lia. exact Hok.
Qed.

Lemma retry_loop_raises (s : Z) (retries : nat) (delay : D) :
  forall k i e fuel (errs : nat -> E),
    (i + S k)%nat = retries -> fuel = (retries - i)%nat ->
    (forall j, (j <= k)%nat -> func (i + j) s (shrunk s e j) = FErr (errs j)) ->
    retry_loop func s e retries delay i fuel =
      (RetRaise (errs k),
       failed_attempts s e delay errs k ++ [ACall s (shrunk s e k); AOutOfRetries]).
Proof.
  induction k as [|k IH]; intros i e fuel errs Hk Hfuel Hfail.
  - destruct fuel as [|fuel]; [lia|]. simpl.
    specialize (Hfail 0%nat ltac:(lia)) as H0.
    rewrite Nat.add_0_r in H0. simpl in H0. rewrite H0.
    assert (Hlt : Nat.ltb i (retries - 1) = false) by (apply Nat.ltb_ge; lia).
    rewrite Hlt. reflexivity.
  - destruct fuel as [|fuel]; [lia|]. simpl.
    specialize (Hfail 0%nat ltac:(lia)) as H0.
    rewrite Nat.add_0_r in H0. simpl in H0. rewrite H0.
    assert (Hlt : Nat.ltb i (retries - 1) = true) by (apply Nat.ltb_lt; lia).
    rewrite Hlt. fold (halve s e).
    rewrite (IH (S i) (halve s e) fuel (fun j => errs (S j))); [reflexivity | lia | lia |].
    intros j Hj. specialize (Hfail (S j) ltac:(lia)).
    replace (S i + j)%nat with (i + S j)%nat by lia. exact Hfail.
Qed.

End RetryLemmas.

Lemma count_calls_app {E D : Type} (l1 l2 : list (action E D)) :
  count_calls (l1 ++ l2) = (count_calls l1 + count_calls l2)%nat.
Proof. induction l1 as [|a l1 IH]; [reflexivity|]. destruct a; simpl; rewrite ?IH; reflexivity. Qed.

Lemma count_calls_failed_attempts {E D : Type} s (delay : D) :
  forall k e (errs : nat -> E), count_calls (failed_attempts s e delay errs k) = k.
Proof. induction k as [|k IH]; intros e errs; [reflexivity|]. simpl. rewrite IH. reflexivity. Qed.

(** The range end at attempt [k] is [from + (to - from) / 2^k]. *)
Lemma shrunk_width s : forall k e, shrunk s e k - s = (e - s) / 2 ^ Z.of_nat k.
Proof.
  induction k as [|k IH]; intros e.
  - simpl. rewrite Z.div_1_r. lia.
  - simpl shrunk. rewrite IH. unfold halve.
    replace (s + (e - s) / 2 - s) with ((e - s) / 2) by lia.
    rewrite Z.div_div by (try apply Z.pow_pos_nonneg; lia).
    f_equal. rewrite Nat2Z.inj_succ, Z.pow_succ_r by lia. reflexivity.
Qed.

(** The least index at which a decidable property of [nat] holds. *)
Lemma least_index (P : nat -> bool) (K : nat) :
  P K = true -> exists k, (k <= K)%nat /\ P k = true /\ forall j, (j < k)%nat -> P j = false.
Proof.
  intros HK.
  assert (Hgen : forall m, (forall j, (j < m)%nat -> P j = false) \/
            exists k, (k < m)%nat /\ P k = true /\ forall j, (j < k)%nat -> P j = false).
  { induction m as [|m IH]; [left; intros; lia|].
    destruct IH as [Hall | Hex].
    - destruct (P m) eqn:Hm.
      + right. exists m. split; [lia|]. split; [exact Hm | exact Hall].
      + left. intros j Hj. destruct (Nat.eq_dec j m) as [->|]; [exact Hm|]. apply Hall; lia.
    - right. destruct Hex as (k & Hk & Hp & Hb). exists k. split; [lia|]. split; assumption. }
  destruct (Hgen (S K)) as [Hall | (k & Hk & Hp & Hb)].
  - rewrite (Hall K ltac:(lia)) in HK. discriminate.
  - exists k. split; [lia|]. split; assumption.
Qed.

(** ** C1: retry-and-shrink *)

(** C1. [_retry_web3_call] with budget [retries] makes at most [retries]
    attempts.  Attempt [k] queries [[from, shrunk from to k]], where each
    failure but the last logs the error, replaces [to] by
    [from + (to - from) / 2] and sleeps the fixed [delay].  The first
    successful attempt returns [(current to, logs)]; when all [retries]
    attempts fail the last error is re-raised (with [retries = 0] no call
    is made and [None] is returned).  A node that fails three times on
    [[1000, 2000]] is queried on [[1000, 1500]], [[1000, 1250]],
    [[1000, 1125]], and [actual_to] is 1125. *)
Theorem retry_web3_call_shrinks {A E D : Type} (func : nat -> Z -> Z -> fetch_result A E)
    (s e : Z) (retries : nat) (delay : D) (errs : nat -> E) :
  (forall k logs, (k < retries)%nat ->
     (forall j, (j < k)%nat -> func j s (shrunk s e j) = FErr (errs j)) ->
     func k s (shrunk s e k) = FOk logs ->
     retry_web3_call func s e retries delay =
       (RetOk (shrunk s e k) logs,
        failed_attempts s e delay errs k ++ [ACall s (shrunk s e k)]))
  /\ (forall k, retries = S k ->
     (forall j, (j <= k)%nat -> func j s (shrunk s e j) = FErr (errs j)) ->
     retry_web3_call func s e retries delay =
       (RetRaise (errs k),
        failed_attempts s e delay errs k ++ [ACall s (shrunk s e k); AOutOfRetries]))
  /\ (retries = O -> retry_web3_call func s e retries delay = (RetNone, []))
  /\ retry_web3_call (A:=unit) (E:=unit) (fail_first 3 tt tt) 1000 2000 4 12 =
       (RetOk 1125 tt,
        [ACall 1000 2000; AWarn 1000 2000 tt; ASleep 12;
         ACall 1000 1500; AWarn 1000 1500 tt; ASleep 12;
         ACall 1000 1250; AWarn 1000 1250 tt; ASleep 12;
         ACall 1000 1125]).
Proof.
  split; [|split; [|split]].
  - intros k logs Hk Hfail Hok. unfold retry_web3_call.
    apply (retry_loop_succeeds func s retries delay logs k 0 e retries errs); [lia | lia | exact Hfail | exact Hok].
  - intros k Hr Hfail. unfold retry_web3_call.
    apply (retry_loop_raises func s retries delay k 0 e retries errs); [lia | lia | exact Hfail].
  - intros ->. reflexivity.
  - reflexivity.
Qed.

(** Applied to the node of the spec's oversized-response scenario. *)
Lemma retry_web3_call_shrinks_witness :
  (3 < 4)%nat /\
  fst (retry_web3_call (A:=unit) (E:=unit) (fail_first 3 tt tt) 1000 2000 4 12)
    = RetOk 1125 tt.
Proof.
  split; [lia|].
  rewrite (proj1 (retry_web3_call_shrinks (fail_first 3 tt tt) 1000 2000 4 12 (fun _ => tt))
             3%nat tt); [reflexivity | lia | |].
  - intros j Hj. unfold fail_first. apply Nat.ltb_lt in Hj. rewrite Hj. reflexivity.
  - reflexivity.
Defined.

(** ** C2: shrink convergence *)

(** C2 (counterexample).  A node accepting ranges of at most 100 blocks,
    asked for [[0, 1999]] (2000 blocks, bound
    [ceil(log2 20) + 1 = 6] attempts): with the default budget of 4
    attempts the fetcher raises after 4 calls. *)
Lemma retry_web3_call_budget_exhausted :
  1999 - 0 + 1 <= 100 * 2 ^ 5 /\
  fst (retry_web3_call (A:=unit) (E:=unit) (D:=Z) (width_oracle 100 tt tt) 0 1999 4 12)
    = RetRaise tt /\
  count_calls (snd (retry_web3_call (A:=unit) (E:=unit) (D:=Z)
                      (width_oracle 100 tt tt) 0 1999 4 12)) = 4%nat.
Proof. split; [lia | split; reflexivity]. Qed.

(** C2 (amended).  Against a node that accepts exactly the ranges of at
    most [W] blocks:
    - for every [K] with [to - from + 1 <= W * 2^K] (the least such [K]
      is [ceil(log2((to - from + 1) / W))] when the range is wider than
      [W], 0 otherwise) and a retry budget of at least [K + 1], the
      fetcher returns [(actual_to, logs)] after [k + 1 <= K + 1] node
      calls;
    - with a budget of [retries >= 1] attempts that are all too wide
      ([W * 2^(retries-1) <= to - from], i.e. [retries] is at most the
      least [K] above, for [W >= 0]) it re-raises the node's error after
      exactly [retries] calls;
    - with [retries = 0] it makes no call and returns [None]. *)
Theorem retry_web3_call_converges {A E D : Type} (W : Z) (logs : A) (err : E)
    (s e : Z) (retries : nat) (delay : D) :
  (forall K : nat, e - s + 1 <= W * 2 ^ Z.of_nat K -> (K < retries)%nat ->
   exists k, (k <= K)%nat /\
     fst (retry_web3_call (width_oracle W logs err) s e retries delay)
       = RetOk (shrunk s e k) logs /\
     count_calls (snd (retry_web3_call (width_oracle W logs err) s e retries delay))
       = S k) /\
  ((0 < retries)%nat -> 0 <= W -> W * 2 ^ Z.of_nat (retries - 1) <= e - s ->
   fst (retry_web3_call (width_oracle W logs err) s e retries delay) = RetRaise err /\
   count_calls (snd (retry_web3_call (width_oracle W logs err) s e retries delay))
     = retries) /\
  (retries = O ->
   fst (retry_web3_call (width_oracle W logs err) s e retries delay) = RetNone /\
   count_calls (snd (retry_web3_call (width_oracle W logs err) s e retries delay)) = O).
Proof.
  split; [|split].
  - intros K Hbound HK.
    set (P := fun j => shrunk s e j - s + 1 <=? W).
    assert (HPK : P K = true).
    { unfold P. apply Z.leb_le. rewrite shrunk_width.
      assert (0 < 2 ^ Z.of_nat K) by (apply Z.pow_pos_nonneg; lia).
      assert ((e - s) / 2 ^ Z.of_nat K < W).
      { apply Z.div_lt_upper_bound; lia. }
      lia. }
    destruct (least_index P K HPK) as (k & HkK & HPk & Hbelow).
    exists k. split; [exact HkK|]. unfold retry_web3_call.
    rewrite (retry_loop_succeeds (width_oracle W logs err) s retries delay logs k O e retries
               (fun _ => err)); [| lia | lia | |].
    + simpl. split; [reflexivity|].
      rewrite count_calls_app, count_calls_failed_attempts. simpl. lia.
    + intros j Hj. unfold width_oracle. specialize (Hbelow j Hj). unfold P in Hbelow.
      rewrite Hbelow. reflexivity.
    + unfold width_oracle. unfold P in HPk. rewrite HPk. reflexivity.
  - intros Hr HW Hwide. destruct retries as [|r]; [lia|].
    replace (S r - 1)%nat with r in Hwide by lia.
    unfold retry_web3_call.
    rewrite (retry_loop_raises (width_oracle W logs err) s (S r) delay r O e (S r)
               (fun _ => err)); [| lia | lia |].
    + simpl. split; [reflexivity|].
      rewrite count_calls_app, count_calls_failed_attempts. simpl. lia.
    + intros j Hj. unfold width_oracle. simpl.
      replace (shrunk s e j - s + 1 <=? W) with false; [reflexivity|].
      symmetry. apply Z.leb_gt. rewrite shrunk_width.
      assert (Hp : 0 < 2 ^ Z.of_nat j) by (apply Z.pow_pos_nonneg; lia).
      assert (Hjr : 2 ^ Z.of_nat j <= 2 ^ Z.of_nat r) by (apply Z.pow_le_mono_r; lia).
      assert (W <= (e - s) / 2 ^ Z.of_nat j) by (apply Z.div_le_lower_bound; nia).
      lia.
  - intros ->. split; reflexivity.
Qed.

(** Applied to a node accepting 126-block ranges and the request
    [[1000, 2000]] (1001 blocks, [K = 3], budget 4), and to a node
    accepting 100-block ranges and the request [[0, 1999]] with the
    default budget of 4 attempts, all too wide. *)
Lemma retry_web3_call_converges_witness :
  (exists k, (k <= 3)%nat /\
    fst (retry_web3_call (A:=unit) (E:=unit) (D:=Z) (width_oracle 126 tt tt) 1000 2000 4 12)
      = RetOk (shrunk 1000 2000 k) tt /\
    count_calls (snd (retry_web3_call (A:=unit) (E:=unit) (D:=Z)
                        (width_oracle 126 tt tt) 1000 2000 4 12)) = S k) /\
  fst (retry_web3_call (A:=unit) (E:=unit) (D:=Z) (width_oracle 100 tt tt) 0 1999 4 12)
    = RetRaise tt /\
  count_calls (snd (retry_web3_call (A:=unit) (E:=unit) (D:=Z)
                      (width_oracle 100 tt tt) 0 1999 4 12)) = 4%nat.
Proof.
  split.
  - apply (proj1 (retry_web3_call_converges 126 tt tt 1000 2000 4 12) 3%nat); simpl; lia.
  - apply (proj1 (proj2 (retry_web3_call_converges 100 tt tt 0 1999 4 12))); simpl; lia.
Defined.

(** ** C3: chunk sizer *)

(** The sizer of a scanner with [max >= 10], case by case. *)
Lemma estimate_next_chunk_size_cases (max_chunk_scan_size current : Z) (hit_count : nat) :
  10 <= max_chunk_scan_size ->
  estimate_next_chunk_size (make_scanner max_chunk_scan_size) current hit_count =
  if Nat.ltb 0 hit_count then Some 10
  else match float_of_int current with
       | None => None
       | Some f => Some (match fmul2 f with
                         | FFin z => Z.min max_chunk_scan_size (Z.max 10 z)
                         | FPosInf => max_chunk_scan_size
                         | FNegInf => 10
                         end)
       end.
Proof.
  intros Hmax. unfold estimate_next_chunk_size, make_scanner. simpl.
  destruct (Nat.ltb 0 hit_count).
  - unfold py_max, py_min. simpl. destruct (10 <? max_chunk_scan_size) eqn:H; simpl;
      [reflexivity | apply Z.ltb_ge in H; f_equal; lia].
  - destruct (float_of_int current) as [f|]; [|reflexivity].
    destruct (fmul2 f) as [z| |]; unfold py_max, py_min; simpl.
    + destruct (10 <? z) eqn:H1; simpl.
      * destruct (z <? max_chunk_scan_size) eqn:H2; simpl; f_equal;
          apply Z.ltb_lt in H1; [apply Z.ltb_lt in H2 | apply Z.ltb_ge in H2]; lia.
      * destruct (10 <? max_chunk_scan_size) eqn:H2; simpl; f_equal;
          apply Z.ltb_ge in H1; [apply Z.ltb_lt in H2 | apply Z.ltb_ge in H2]; lia.
    + reflexivity.
    + destruct (10 <? max_chunk_scan_size) eqn:H2; simpl; [reflexivity|].
      apply Z.ltb_ge in H2. f_equal. lia.
Qed.

(** C3 (counterexample).  After an empty chunk with [current = 2^1024],
    [current * 2.0] raises [OverflowError] (the int does not fit a
    float): no size is returned, in [[10, max]] or elsewhere. *)
Lemma estimate_next_chunk_size_overflow :
  estimate_next_chunk_size (make_scanner 1000) (2 ^ 1024) 0 = None.
Proof. reflexivity. Qed.

(** C3 (amended).  For a scanner with [max_chunk_scan_size >= 10] (the
    fixed [min_scan_chunk_size]): after a chunk with events the size is
    10; after an empty chunk it is [float(current) * 2.0] (current
    rounded to a double, so exactly [current * 2] when
    [|current| < 2^53]) clamped into [[10, max]] and truncated to an int.
    Whenever the sizer returns, the result lies in [[10, max]]; it raises
    [OverflowError] only after an empty chunk with [float(current)]
    overflowing ([|round(current)| >= 2^1024]).  With [max = 1000] and
    size 20, six empty chunks give 40, 80, 160, 320, 640, 1000 and a
    chunk with 3 events gives 10; at [current = 2^53 + 1] the doubled
    size is [2^54], not [2^54 + 2]. *)
Theorem estimate_next_chunk_size_bounds (max_chunk_scan_size current : Z) (hit_count : nat) :
  10 <= max_chunk_scan_size ->
  ((0 < hit_count)%nat ->
     estimate_next_chunk_size (make_scanner max_chunk_scan_size) current hit_count = Some 10) /\
  (hit_count = O -> Z.abs current < 2 ^ 53 ->
     estimate_next_chunk_size (make_scanner max_chunk_scan_size) current hit_count
       = Some (Z.min max_chunk_scan_size (Z.max 10 (current * 2)))) /\
  (forall r, estimate_next_chunk_size (make_scanner max_chunk_scan_size) current hit_count
               = Some r -> 10 <= r <= max_chunk_scan_size) /\
  (estimate_next_chunk_size (make_scanner max_chunk_scan_size) current hit_count = None ->
     hit_count = O /\ 2 ^ 1024 <= Z.abs (round_double current)) /\
  sizes run_scanner 20 [0; 0; 0; 0; 0; 0; 3]%nat = Some [40; 80; 160; 320; 640; 1000; 10] /\
  estimate_next_chunk_size (make_scanner (10 ^ 20)) (2 ^ 53 + 1) 0 = Some (2 ^ 54).
Proof.
  intros Hmax. rewrite (estimate_next_chunk_size_cases _ _ _ Hmax).
  split; [|split; [|split; [|split; [|split]]]].
  - intros Hh. apply Nat.ltb_lt in Hh. rewrite Hh. reflexivity.
  - intros -> Hsmall. simpl.
    assert (Hr : round_double current = current).
    { unfold round_double.
      destruct (Z.eq_dec current 0) as [->|Hnz]; [reflexivity|].
      assert (Hlog : Z.log2 (Z.abs current) < 53)
        by (apply Z.log2_lt_pow2; lia).
      replace (Z.log2 (Z.abs current) - 52 <=? 0) with true by (symmetry; apply Z.leb_le; lia).
      reflexivity. }
    unfold float_of_int. rewrite Hr.
    replace (2 ^ 1024 <=? Z.abs current) with false
      by (symmetry; apply Z.leb_gt; assert (2 ^ 53 < 2 ^ 1024) by reflexivity; lia).
    simpl. replace (2 ^ 1024 <=? Z.abs (2 * current)) with false
      by (symmetry; apply Z.leb_gt; assert (2 ^ 54 < 2 ^ 1024) by reflexivity; lia).
    f_equal. lia.
  - intros r. destruct (Nat.ltb 0 hit_count); [intros H; injection H as <-; lia|].
    destruct (float_of_int current) as [f|]; [|discriminate].
    destruct (fmul2 f); intros H; injection H as <-; lia.
  - destruct (Nat.ltb 0 hit_count) eqn:Hh; [discriminate|].
    apply Nat.ltb_ge in Hh. unfold float_of_int.
    destruct (2 ^ 1024 <=? Z.abs (round_double current)) eqn:Ho; [|discriminate].
    intros _. split; [lia | apply Z.leb_le; exact Ho].
  - reflexivity.
  - reflexivity.
Qed.

(** Applied to the scanner of [filter.run] ([max = MAX_CHUNK_SIZE]). *)
Lemma estimate_next_chunk_size_bounds_witness :
  10 <= 1000 /\
  estimate_next_chunk_size (make_scanner 1000) 640 0 = Some 1000 /\
  10 <= 1000 <= 1000.
Proof.
  destruct (estimate_next_chunk_size_bounds 1000 640 0 ltac:(lia)) as (_ & H2 & H3 & _).
  assert (He : estimate_next_chunk_size (make_scanner 1000) 640 0 = Some 1000)
    by (rewrite (H2 eq_refl ltac:(lia)); reflexivity).
  split; [lia|]. split; [exact He | exact (H3 1000 He)].
Defined.

(** ** C8: segment splitting *)

Lemma segments_loop_partition :
  forall fuel c e, c <= e -> e - c < MAX_CHUNK_SIZE * Z.of_nat fuel ->
  partition_ok (segments_loop fuel c e) c e.
Proof.
  induction fuel as [|fuel IH]; intros c e Hce Hfuel;
    [unfold MAX_CHUNK_SIZE in Hfuel; simpl in Hfuel; lia|].
  cbn [segments_loop]. destruct (c + MAX_CHUNK_SIZE <? e) eqn:Hlt.
  - apply Z.ltb_lt in Hlt.
    assert (Hrest : partition_ok (segments_loop fuel (c + MAX_CHUNK_SIZE) e)
                      (c + MAX_CHUNK_SIZE) e).
    { apply IH; [lia|]. rewrite Nat2Z.inj_succ in Hfuel. lia. }
    destruct (segments_loop fuel (c + MAX_CHUNK_SIZE) e) as [|p rest]; [contradiction|].
    change (c = c /\ c + MAX_CHUNK_SIZE - 1 - c + 1 = MAX_CHUNK_SIZE /\
            partition_ok (p :: rest) (c + MAX_CHUNK_SIZE - 1 + 1) e).
    split; [reflexivity|]. split; [lia|].
    replace (c + MAX_CHUNK_SIZE - 1 + 1) with (c + MAX_CHUNK_SIZE) by lia. exact Hrest.
  - apply Z.ltb_ge in Hlt. cbn [partition_ok]. unfold MAX_CHUNK_SIZE in *. lia.
Qed.

Lemma partition_ok_nonempty : forall segs c e, partition_ok segs c e -> c <= e.
Proof.
  induction segs as [|[a b] rest IH]; intros c e H; [contradiction|].
  destruct rest as [|p rest']; simpl in H.
  - unfold MAX_CHUNK_SIZE in H. lia.
  - destruct H as (-> & Hw & Hrest). apply IH in Hrest. unfold MAX_CHUNK_SIZE in Hw. lia.
Qed.

Lemma partition_ok_covers : forall segs c e, partition_ok segs c e ->
  forall h, c <= h <= e <-> exists a b, In (a, b) segs /\ a <= h <= b.
Proof.
  induction segs as [|[a b] rest IH]; intros c e H h; [contradiction|].
  destruct rest as [|p rest'].
  - simpl in H. destruct H as (-> & -> & _). split.
    + intros Hh. exists c, e. split; [left; reflexivity | lia].
    + intros (a' & b' & [Heq|[]] & Hh). inversion Heq; subst. lia.
  - change (partition_ok ((a, b) :: p :: rest') c e) with
      (a = c /\ b - a + 1 = MAX_CHUNK_SIZE /\ partition_ok (p :: rest') (b + 1) e) in H.
    destruct H as (-> & Hw & Hrest).
    pose proof (partition_ok_nonempty _ _ _ Hrest) as Hne.
    specialize (IH _ _ Hrest h). split.
    + intros Hh. destruct (Z_le_gt_dec h b).
      * exists c, b. split; [left; reflexivity | lia].
      * destruct (proj1 IH ltac:(lia)) as (a' & b' & Hin & Hh').
        exists a', b'. split; [right; exact Hin | exact Hh'].
    + intros (a' & b' & [Heq|Hin] & Hh).
      * inversion Heq; subst. lia.
      * assert (b + 1 <= h <= e) by (apply IH; exists a', b'; split; assumption).
        unfold MAX_CHUNK_SIZE in Hw. lia.
Qed.

(** C8 (counterexample).  [taskCreator] splits [[1, 4001]] into three
    segments of 1000 blocks and a last one of 1001 blocks, not into four
    segments of 1000 and one of 2. *)
Lemma task_segments_1_4001 :
  task_segments 1 4001 = [(1, 1000); (1001, 2000); (2001, 3000); (3001, 4001)] /\
  length (task_segments 1 4001) = 4%nat.
Proof. split; reflexivity. Qed.

(** C8 (amended).  For [start <= end], [taskCreator]'s segments are
    contiguous and cover exactly [[start, end]]; every segment but the
    last has [MAX_CHUNK_SIZE] blocks and the last takes the remaining
    1 to [MAX_CHUNK_SIZE + 1] blocks; [[1, 4001]] gives
    [[1, 1000]], [[1001, 2000]], [[2001, 3000]], [[3001, 4001]]. *)
Theorem task_segments_partition (start_b end_b : Z) :
  start_b <= end_b ->
  partition_ok (task_segments start_b end_b) start_b end_b /\
  (forall h, start_b <= h <= end_b <->
             exists a b, In (a, b) (task_segments start_b end_b) /\ a <= h <= b) /\
  task_segments 1 4001 = [(1, 1000); (1001, 2000); (2001, 3000); (3001, 4001)].
Proof.
  intros Hle.
  assert (Hok : partition_ok (task_segments start_b end_b) start_b end_b).
  { unfold task_segments. apply segments_loop_partition; [exact Hle|].
    unfold MAX_CHUNK_SIZE. rewrite Nat2Z.inj_add, Z2Nat.id by lia. simpl. lia. }
  split; [exact Hok|]. split; [|reflexivity].
  exact (partition_ok_covers _ _ _ Hok).
Qed.

(** Applied to the range [[1, 4001]]. *)
Lemma task_segments_partition_witness :
  1 <= 4001 /\ partition_ok (task_segments 1 4001) 1 4001.
Proof. split; [lia|]. exact (proj1 (task_segments_partition 1 4001 ltac:(lia))). Defined.

(** ** Creation-block locator *)

Lemma middle_bounds (lo hi : Z) :
  2 * ((lo + hi) / 2) <= lo + hi < 2 * ((lo + hi) / 2) + 2.
Proof.
  pose proof (Z.div_mod (lo + hi) 2 ltac:(lia)).
  pose proof (Z.mod_pos_bound (lo + hi) 2 ltac:(lia)). lia.
Qed.

(** When [code_at(lo - 1)] is already non-empty, every probe sees code
    on both sides and the search keeps [[lo, mid]] without ever
    returning. *)
Lemma locator_diverges_below (p : Z -> bool) :
  monotone p ->
  forall fuel lo hi count, lo <= hi -> p (lo - 1) = true ->
  get_contract_creation_block fuel p lo hi count = None.
Proof.
  intros Hmono. induction fuel as [|fuel IH]; intros lo hi count Hle Hlo; [reflexivity|].
  cbn [get_contract_creation_block].
  pose proof (middle_bounds lo hi) as Hm.
  set (m := (lo + hi) / 2) in *.
  rewrite (Hmono (lo - 1) (m - 1) ltac:(lia) Hlo).
  rewrite (Hmono (lo - 1) m ltac:(lia) Hlo). simpl.
  apply IH; [lia | exact Hlo].
Qed.

(** When [code_at(hi)] is empty, every probe sees no code and the search
    keeps [[mid, hi]] without ever returning. *)
Lemma locator_diverges_above (p : Z -> bool) :
  monotone p ->
  forall fuel lo hi count, lo <= hi -> p hi = false ->
  get_contract_creation_block fuel p lo hi count = None.
Proof.
  intros Hmono. induction fuel as [|fuel IH]; intros lo hi count Hle Hhi; [reflexivity|].
  cbn [get_contract_creation_block].
  pose proof (middle_bounds lo hi) as Hm.
  set (m := (lo + hi) / 2) in *.
  destruct (p m) eqn:Hpm.
  - rewrite (Hmono m hi ltac:(lia) Hpm) in Hhi. discriminate.
  - simpl. apply IH; [lia | exact Hhi].
Qed.

(** When the creation block is [hi] itself ([code_at(hi - 1)] empty) and
    [lo < hi], every probe [mid < hi] sees no code and the search keeps
    [[mid, hi]]; once [hi = lo + 1] it stays there. *)
Lemma locator_diverges_at_hi (p : Z -> bool) :
  monotone p ->
  forall fuel lo hi count, lo < hi -> p (hi - 1) = false ->
  get_contract_creation_block fuel p lo hi count = None.
Proof.
  intros Hmono. induction fuel as [|fuel IH]; intros lo hi count Hlt Hhi; [reflexivity|].
  cbn [get_contract_creation_block].
  pose proof (middle_bounds lo hi) as Hm.
  set (m := (lo + hi) / 2) in *.
  destruct (p m) eqn:Hpm.
  - rewrite (Hmono m (hi - 1) ltac:(lia) Hpm) in Hhi. discriminate.
  - simpl. apply IH; [lia | exact Hhi].
Qed.

(** When the creation block [c] lies in [[lo, hi)], the search returns it
    after at most [k + 1] nested calls (two [get_code] queries each),
    where [hi - lo <= 2^k]. *)
Lemma locator_finds_below_hi (p : Z -> bool) (c : Z) :
  monotone p -> p (c - 1) = false -> p c = true ->
  forall k fuel lo hi count, lo <= c < hi -> hi - lo <= 2 ^ Z.of_nat k -> (k < fuel)%nat ->
  get_contract_creation_block fuel p lo hi count = Some c.
Proof.
  intros Hmono Hc1 Hc.
  induction k as [|k IH]; intros fuel lo hi count Hin Hsize Hfuel;
    (destruct fuel as [|fuel]; [lia|]); cbn [get_contract_creation_block];
    pose proof (middle_bounds lo hi) as Hm;
    set (m := (lo + hi) / 2) in *;
    [simpl in Hsize | rewrite Nat2Z.inj_succ, Z.pow_succ_r in Hsize by lia];
    destruct (Z.lt_trichotomy m c) as [Hlt | [Heq | Hgt]].
  - lia.
  - rewrite Heq, Hc, Hc1. reflexivity.
  - lia.
  - destruct (p m) eqn:Hpm.
    + rewrite (Hmono m (c - 1) ltac:(lia) Hpm) in Hc1. discriminate.
    + simpl. apply IH; [lia | lia | lia].
  - rewrite Heq, Hc, Hc1. reflexivity.
  - rewrite (Hmono c m ltac:(lia) Hc), (Hmono c (m - 1) ltac:(lia) Hc). simpl.
    apply IH; [lia | lia | lia].
Qed.

(** C4 (code_bug).  For a monotone has-code predicate whose creation
    block is [hi] itself and [lo < hi], the locator never returns: every
    probe is below [hi] and [[lo, hi]] stops shrinking at [[hi - 1, hi]].
    [run] meets this case for a contract deployed in the latest block. *)
Theorem creation_block_at_hi_diverges (p : Z -> bool) (lo hi : Z) :
  monotone p -> lo < hi -> p (hi - 1) = false -> p hi = true ->
  (forall fuel count, get_contract_creation_block fuel p lo hi count = None) /\
  (forall fuel, run fuel created_at_tip_chain None = RunOutOfFuel).
Proof.
  intros Hmono Hlt Hhi1 Hhi. split.
  - intros fuel count. apply (locator_diverges_at_hi p Hmono); assumption.
  - intros fuel. unfold run, choose_cutoff. simpl.
    rewrite (locator_diverges_at_hi (code_from 1000)); [reflexivity | | lia | reflexivity].
    intros x y Hxy Hx. unfold code_from in *. apply Z.leb_le in Hx. apply Z.leb_le. lia.
Qed.

Lemma code_from_monotone (c : Z) : monotone (code_from c).
Proof. intros x y Hxy Hx. unfold code_from in *. apply Z.leb_le in Hx. apply Z.leb_le. lia. Qed.

(** Applied to the spec's search from block 1 with the contract deployed
    at the latest block 4. *)
Lemma creation_block_at_hi_diverges_witness :
  1 < 4 /\ code_from 4 (4 - 1) = false /\ code_from 4 4 = true /\
  get_contract_creation_block 1000 (code_from 4) 1 4 0 = None.
Proof.
  split; [lia | split; [reflexivity | split; [reflexivity|]]].
  exact (proj1 (creation_block_at_hi_diverges (code_from 4) 1 4 (code_from_monotone 4)
                  ltac:(lia) eq_refl eq_refl) 1000%nat 0%nat).
Defined.

(** C5 (counterexample).  With code only at block 2 (deployed, then
    destroyed), [code_at(4)] is empty on [[1, 4]], yet the locator
    returns the height 2 instead of failing. *)
Lemma creation_block_no_precondition_check :
  (fun h => h =? 2) 4 = false /\
  get_contract_creation_block 10 (fun h => h =? 2) 1 4 0 = Some 2.
Proof. split; reflexivity. Qed.

(** C5 (amended).  The locator checks no precondition and has no
    [ContractNotFound] error.  For a monotone has-code predicate and
    [lo <= hi] with [code_at(lo - 1)] non-empty or [code_at(hi)] empty (no
    creation transition in [[lo, hi]]) it never returns; a non-monotone
    predicate can make it return a height although [code_at(hi)] is
    empty. *)
Theorem creation_block_without_transition (p : Z -> bool) (lo hi : Z) :
  monotone p -> lo <= hi -> (p (lo - 1) = true \/ p hi = false) ->
  (forall fuel count, get_contract_creation_block fuel p lo hi count = None) /\
  get_contract_creation_block 10 (fun h => h =? 2) 1 4 0 = Some 2.
Proof.
  intros Hmono Hle Hpre. split; [|reflexivity].
  intros fuel count. destruct Hpre as [Hlo | Hhi].
  - apply (locator_diverges_below p Hmono); assumption.
  - apply (locator_diverges_above p Hmono); assumption.
Qed.

(** Applied to a contract deployed at block 10 searched on [[1, 5]]. *)
Lemma creation_block_without_transition_witness :
  1 <= 5 /\ code_from 10 5 = false /\
  get_contract_creation_block 1000 (code_from 10) 1 5 0 = None.
Proof.
  split; [lia | split; [reflexivity|]].
  exact (proj1 (creation_block_without_transition (code_from 10) 1 5 (code_from_monotone 10)
                  ltac:(lia) (or_intror eq_refl)) 1000%nat 0%nat).
Defined.

(** ** C6: effective start of a cycle *)

(** C6 (code_bug).  With a stored cursor at 1000, [run] scans from 1000
    itself: no [REORG_SAFETY] rewind is applied, whereas the claim asks
    for [max(1, 1000 - 10) = 990]. *)
Theorem run_starts_at_cursor :
  match run 100 tip_chain (Some 1000) with
  | RunOk scan_start _ _ _ => scan_start = 1000 /\ scan_start <> Z.max 1 (1000 - 10)
  | _ => False
  end.
Proof. vm_compute. split; [reflexivity | discriminate]. Qed.

(** ** C7: no tip reads *)

(** C7 (code_bug).  Cursor at 1000, tip at 1100 (so [end = 1099]):
    [run] scans [[1000, 6001]], past the tip; the chunk [[1779, 2419]] of
    the first segment [[1000, 1999]] reaches past the segment end; and
    the [Transfer] of the tip block 1100 is inserted. *)
Theorem run_reads_tip :
  match run 100 tip_chain (Some 1000) with
  | RunOk _ scan_end records chunks =>
      latest tip_chain - 1 < scan_end /\
      In 1100 (map rec_block records) /\
      In (1779, 2419) chunks /\ 1999 < 2419
  | _ => False
  end.
Proof.
  vm_compute. split; [reflexivity|]. split; [left; reflexivity|]. split; [|reflexivity].
  do 9 right. left. reflexivity.
Qed.

(** ** C9: header not found during timestamp hydration *)

(** C9 (code_bug).  The header of block 105 is not found while the node
    returns a [Transfer] of block 105: [get_block_timestamp] gives [None],
    [process_event] then raises on [None.isoformat()] and the whole cycle
    aborts. *)
Theorem run_aborts_on_missing_header :
  header lost_header_chain 105 = None /\
  run 100 lost_header_chain (Some 100) = RunFailed ErrIsoformatNone.
Proof. split; reflexivity. Qed.

(** ** C10: processing is keyed by (block_number, tx_hash, log_index) *)

(** C10.  When processing [e1] succeeds, processing an event [e2] with the
    same block number, transaction hash and log index afterwards gives
    the same state (and key) as processing [e2] alone: the second entry
    overwrites the first. *)
Theorem process_event_overwrites {E : Type} (st s1 : JSONifiedState) (w1 w2 : option Z)
    (e1 e2 : raw_log) (k1 : event_key) :
  blockNumber e1 = blockNumber e2 ->
  transactionHash e1 = transactionHash e2 ->
  logIndex e1 = logIndex e2 ->
  process_event (E:=E) st w1 e1 = inr (s1, k1) ->
  process_event (E:=E) s1 w2 e2 = process_event (E:=E) st w2 e2.
Proof.
  intros Hb Ht Hl H1.
  destruct w1 as [t1|]; [|discriminate].
  unfold process_event in H1. injection H1 as <- _.
  destruct w2 as [t2|]; [|reflexivity].
  unfold process_event. simpl. rewrite <- Hb, <- Ht, <- Hl.
  rewrite lookup_insert_eq. simpl. rewrite lookup_insert_eq. simpl.
  rewrite !insert_insert_eq. reflexivity.
Qed.

(** Applied to a re-scanned [Transfer] whose value changed after a
    reorg. *)
Lemma process_event_overwrites_witness :
  exists s1 k1,
    process_event (E:=unit) {| last_scanned_block := 0; blocks := ∅ |} (Some 12)
      (transfer_log 1 "0xab" 3 7) = inr (s1, k1) /\
    process_event (E:=unit) s1 (Some 12) (transfer_log 1 "0xab" 3 9)
      = process_event (E:=unit) {| last_scanned_block := 0; blocks := ∅ |} (Some 12)
          (transfer_log 1 "0xab" 3 9).
Proof.
  eexists. eexists. split; [reflexivity|].
  apply (process_event_overwrites _ _ (Some 12) (Some 12)
           (transfer_log 1 "0xab" 3 7) (transfer_log 1 "0xab" 3 9) (1, "0xab", Some 3));
    reflexivity.
Defined.

(** * Further properties of the code *)

(** ** Retry loop: call budget and end of the range *)

Section RetryBudget.
Context {A E D : Type}.
Variable func : nat -> Z -> Z -> fetch_result A E.

Lemma retry_loop_calls_le (s : Z) (retries : nat) (delay : D) :
  forall fuel i e, (count_calls (snd (retry_loop func s e retries delay i fuel)) <= fuel)%nat.
Proof.
  induction fuel as [|fuel IH]; intros i e; [simpl; lia|].
  cbn [retry_loop]. destruct (func i s e) as [logs|err]; [simpl; lia|].
  destruct (Nat.ltb i (retries - 1)).
  - destruct (retry_loop func s (s + (e - s) / 2) retries delay (S i) fuel) as [o tr] eqn:Hr.
    specialize (IH (S i) (s + (e - s) / 2)). rewrite Hr in IH. simpl in *. lia.
  - simpl. lia.
Qed.

Lemma retry_loop_not_none (s : Z) (retries : nat) (delay : D) :
  forall fuel i e, fuel = (retries - i)%nat -> (0 < fuel)%nat ->
  fst (retry_loop func s e retries delay i fuel) <> RetNone.
Proof.
  induction fuel as [|fuel IH]; intros i e Hfuel Hpos; [lia|].
  cbn [retry_loop]. destruct (func i s e) as [logs|err]; [discriminate|].
  destruct (Nat.ltb i (retries - 1)) eqn:Hlt.
  - apply Nat.ltb_lt in Hlt.
    specialize (IH (S i) (s + (e - s) / 2) ltac:(lia) ltac:(lia)).
    destruct (retry_loop func s (s + (e - s) / 2) retries delay (S i) fuel) as [o tr].
    exact IH.
  - discriminate.
Qed.

Lemma retry_loop_end (s : Z) (retries : nat) (delay : D) x logs :
  forall fuel i e, fst (retry_loop func s e retries delay i fuel) = RetOk x logs ->
  exists k, x = shrunk s e k.
Proof.
  induction fuel as [|fuel IH]; intros i e H; [discriminate|].
  cbn [retry_loop] in H. destruct (func i s e) as [logs'|err].
  - injection H as <- _. exists O. reflexivity.
  - destruct (Nat.ltb i (retries - 1)); [|discriminate].
    destruct (retry_loop func s (s + (e - s) / 2) retries delay (S i) fuel) as [o tr] eqn:Hr.
    simpl in H. subst o.
    destruct (IH (S i) (s + (e - s) / 2)) as [k Hk]; [rewrite Hr; reflexivity|].
    exists (S k). exact Hk.
Qed.

End RetryBudget.

Lemma shrunk_bounds (s e : Z) (k : nat) : s <= e -> s <= shrunk s e k <= e.
Proof.
  intros Hle. pose proof (shrunk_width s k e) as Hw.
  assert (Hp : 0 < 2 ^ Z.of_nat k) by (apply Z.pow_pos_nonneg; lia).
  assert (0 <= (e - s) / 2 ^ Z.of_nat k) by (apply Z.div_pos; lia).
  assert ((e - s) / 2 ^ Z.of_nat k <= e - s) by (apply Z.div_le_upper_bound; nia).
  lia.
Qed.

(** ** Timestamp cache and event processing *)

Lemma get_block_when_spec (header : Z -> option Z) c n w c' :
  cache_ok header c -> get_block_when header c n = (w, c') ->
  w = header n /\ cache_ok header c' /\ (forall m v, c !! m = Some v -> c' !! m = Some v).
Proof.
  intros Hc H. unfold get_block_when in H. destruct (c !! n) as [w0|] eqn:Hn.
  - injection H as <- <-. split; [exact (Hc n w0 Hn)|]. split; [exact Hc | auto].
  - injection H as <- <-. split; [reflexivity|]. split.
    + intros m v. rewrite lookup_insert. destruct (decide (n = m)) as [<-|Hne].
      * intros Hv. injection Hv as <-. reflexivity.
      * apply Hc.
    + intros m v Hm. rewrite lookup_insert_ne; [exact Hm|]. intros ->. congruence.
Qed.

Lemma process_event_spec {E : Type} st w ev st' k :
  process_event (E:=E) st w ev = inr (st', k) ->
  exists when, w = Some when /\ k = key_of ev /\
    last_scanned_block st' = last_scanned_block st /\
    stored st' k = Some {| t_from := arg_from ev; t_to := arg_to ev;
                           t_value := arg_value ev; t_timestamp := when |} /\
    (forall k', k' <> k -> stored st' k' = stored st k').
Proof.
  intros H. destruct w as [when|]; [|discriminate].
  unfold process_event in H. injection H as <- <-.
  exists when. split; [reflexivity|]. split; [reflexivity|]. split; [reflexivity|]. split.
  - simpl. rewrite !lookup_insert_eq. reflexivity.
  - intros [[b tx] li] Hne. simpl. rewrite lookup_insert.
    destruct (decide (blockNumber ev = b)) as [<-|Hb]; [|reflexivity].
    rewrite lookup_insert.
    destruct (decide (transactionHash ev = tx)) as [<-|Htx].
    + rewrite lookup_insert. destruct (decide (logIndex ev = li)) as [<-|Hli].
      * exfalso. apply Hne. reflexivity.
      * destruct (blocks st !! blockNumber ev) as [txs|]; simpl;
          [destruct (txs !! transactionHash ev) as [evs|]; simpl; [reflexivity|] |];
          rewrite ?lookup_empty; reflexivity.
    + destruct (blocks st !! blockNumber ev) as [txs|]; simpl; [reflexivity|].
      rewrite lookup_empty. reflexivity.
Qed.

Lemma process_events_spec {E : Type} (header : Z -> option Z) :
  forall evs c st c' st' ks,
  cache_ok header c ->
  process_events (E:=E) header c st evs = inr (c', st', ks) ->
  cache_ok header c' /\
  ks = map key_of evs /\
  last_scanned_block st' = last_scanned_block st /\
  (timestamps_ok header st -> timestamps_ok header st') /\
  (forall k, stored st k <> None -> stored st' k <> None) /\
  (forall ev, In ev evs -> stored st' (key_of ev) <> None) /\
  (forall ev, In ev evs -> logIndex ev <> None /\ header (blockNumber ev) <> None).
Proof.
  induction evs as [|ev evs IH]; intros c st c' st' ks Hc H.
  - injection H as <- <- <-. repeat split; auto; contradiction.
  - cbn [process_events] in H.
    destruct (logIndex ev) as [li|] eqn:Hli; [|discriminate].
    destruct (get_block_when header c (blockNumber ev)) as [w c1] eqn:Hg.
    destruct (get_block_when_spec header c (blockNumber ev) w c1 Hc Hg) as (Hw & Hc1 & _).
    destruct (process_event st w ev) as [err|[st1 k1]] eqn:Hp; [discriminate|].
    destruct (process_events header c1 st1 evs) as [err|[[c2 st2] ks2]] eqn:Hr; [discriminate|].
    injection H as <- <- <-.
    destruct (process_event_spec st w ev st1 k1 Hp) as (when & -> & -> & Hlast & Hnew & Hframe).
    destruct (IH c1 st1 c2 st2 ks2 Hc1 Hr) as (Hc2 & Hks & Hlast2 & Hts & Hmono & Hin & Hgood).
    split; [exact Hc2|]. split; [rewrite Hks; reflexivity|].
    split; [congruence|]. split; [|split; [|split]].
    + intros Hts0. apply Hts. intros b tx li' tr Hs.
      destruct (decide ((b, tx, li') = key_of ev)) as [Heq|Hne].
      * rewrite Heq, Hnew in Hs. injection Hs as <-. unfold key_of in Heq.
        injection Heq as -> _ _. simpl. congruence.
      * rewrite (Hframe _ Hne) in Hs. exact (Hts0 _ _ _ _ Hs).
    + intros k Hk. apply Hmono.
      destruct (decide (k = key_of ev)) as [->|Hne]; [rewrite Hnew; discriminate|].
      rewrite (Hframe _ Hne). exact Hk.
    + intros e [<-|He]; [apply Hmono; rewrite Hnew; discriminate | exact (Hin e He)].
    + intros e [<-|He]; [|exact (Hgood e He)]. split; congruence.
Qed.

Lemma process_events_total {E : Type} (header : Z -> option Z) :
  forall evs c st,
  cache_ok header c ->
  (forall ev, In ev evs -> logIndex ev <> None /\ header (blockNumber ev) <> None) ->
  exists c' st', process_events (E:=E) header c st evs = inr (c', st', map key_of evs).
Proof.
  induction evs as [|ev evs IH]; intros c st Hc Hgood.
  - exists c, st. reflexivity.
  - cbn [process_events].
    destruct (Hgood ev (or_introl eq_refl)) as [Hli Hh].
    destruct (logIndex ev) as [li|] eqn:Hli'; [|congruence].
    destruct (get_block_when header c (blockNumber ev)) as [w c1] eqn:Hg.
    destruct (get_block_when_spec header c (blockNumber ev) w c1 Hc Hg) as (Hw & Hc1 & _).
    destruct w as [when|]; [|congruence].
    destruct (process_event (E:=E) st (Some when) ev) as [err|[st1 k1]] eqn:Hp; [discriminate|].
    destruct (process_event_spec st (Some when) ev st1 k1 Hp) as (? & _ & -> & _).
    destruct (IH c1 st1 Hc1 (fun e He => Hgood e (or_intror He))) as (c' & st' & Hr).
    rewrite Hr. exists c', st'. reflexivity.
Qed.

Lemma cache_ok_empty (header : Z -> option Z) : cache_ok header ∅.
Proof. intros n w Hn. rewrite lookup_empty in Hn. discriminate. Qed.

Lemma state_grows_refl header st : state_grows header st st.
Proof. unfold state_grows. auto. Qed.

Lemma state_grows_trans header s1 s2 s3 :
  state_grows header s1 s2 -> state_grows header s2 s3 -> state_grows header s1 s3.
Proof. unfold state_grows. intros (? & ? & ?) (? & ? & ?). split; [congruence|]. auto. Qed.

Lemma scan_chunk_spec {E : Type} (header : Z -> option Z)
    (get_logs : nat -> Z -> Z -> fetch_result (list raw_log) E) sc st s e x ts ks st' :
  scan_chunk header get_logs sc st s e = inr (x, ts, ks, st') ->
  (exists k, x = shrunk s e k) /\ ts = header x /\ state_grows header st st' /\
  (forall k, In k ks -> stored st' k <> None).
Proof.
  intros H. unfold scan_chunk in H.
  destruct (fst (retry_web3_call get_logs s e (max_request_retries sc)
                   (request_retry_seconds sc))) as [x0 logs|err|] eqn:Hr; try discriminate.
  destruct (process_events header ∅ st logs) as [err|[[c st1] ks1]] eqn:Hp; [discriminate|].
  destruct (get_block_when header c x0) as [w c2] eqn:Hg.
  injection H as <- <- <- <-.
  destruct (process_events_spec header logs ∅ st c st1 ks1 (cache_ok_empty header) Hp)
    as (Hc & Hks & Hlast & Hts & Hmono & Hin & _).
  split; [eapply retry_loop_end; exact Hr|].
  split; [exact (proj1 (get_block_when_spec header c x0 w c2 Hc Hg))|].
  split; [unfold state_grows; auto|].
  intros k Hk. rewrite Hks in Hk. apply in_map_iff in Hk as (ev & <- & Hev). exact (Hin ev Hev).
Qed.

Lemma asinc_scan_state {E : Type} (header : Z -> option Z)
    (get_logs : nat -> Z -> Z -> fetch_result (list raw_log) E) sc :
  forall fuel st ps cs cur stop ch st' ps' cs',
  asinc_scan header get_logs fuel sc st ps cs cur stop ch = ScanOk st' ps' cs' ->
  (forall k, In k ps -> stored st k <> None) ->
  state_grows header st st' /\ (forall k, In k ps' -> stored st' k <> None).
Proof.
  induction fuel as [|fuel IH]; intros st ps cs cur stop ch st' ps' cs' H Hps;
    [discriminate|].
  cbn [asinc_scan] in H. destruct (cur <=? stop).
  - destruct (scan_chunk header get_logs sc st cur (cur + ch)) as [err|[[[x ts] ks] st1]] eqn:Hc;
      [discriminate|].
    destruct (scan_chunk_spec header get_logs sc st cur (cur + ch) x ts ks st1 Hc)
      as (_ & _ & Hg & Hks).
    destruct Hg as (Hl & Ht & Hm).
    destruct (estimate_next_chunk_size sc ch (length ks)) as [ch'|]; [|discriminate].
    apply IH in H as [Hg' Hps'].
    + split; [|exact Hps']. eapply state_grows_trans; [|exact Hg']. split; auto.
    + intros k Hk. apply in_app_or in Hk as [Hk|Hk]; [apply Hm, Hps, Hk | apply Hks, Hk].
  - injection H as <- <- <-. split; [apply state_grows_refl | exact Hps].
Qed.

Lemma run_tasks_state {E : Type} (header : Z -> option Z)
    (get_logs : nat -> Z -> Z -> fetch_result (list raw_log) E) sc ch :
  forall segs st ps cs st' ps' cs',
  run_tasks header get_logs sc st ps cs segs ch = ScanOk st' ps' cs' ->
  (forall k, In k ps -> stored st k <> None) ->
  state_grows header st st' /\ (forall k, In k ps' -> stored st' k <> None).
Proof.
  induction segs as [|[a b] segs IH]; intros st ps cs st' ps' cs' H Hps.
  - injection H as <- <- <-. split; [apply state_grows_refl | exact Hps].
  - cbn [run_tasks] in H.
    destruct (asinc_scan header get_logs (Z.to_nat (b - a) + 1) sc st ps cs a b ch)
      as [st1 ps1 cs1| |] eqn:Ha; try discriminate.
    destruct (asinc_scan_state header get_logs sc _ _ _ _ _ _ _ _ _ _ Ha Hps) as [Hg1 Hps1].
    destruct (IH _ _ _ _ _ _ H Hps1) as [Hg2 Hps2].
    split; [eapply state_grows_trans; eassumption | exact Hps2].
Qed.

Lemma scan_state {E : Type} (header : Z -> option Z)
    (get_logs : nat -> Z -> Z -> fetch_result (list raw_log) E) sc st s e ch st' ps cs :
  scan header get_logs sc st s e ch = ScanOk st' ps cs ->
  state_grows header st st' /\ (forall k, In k ps -> stored st' k <> None).
Proof.
  unfold scan. destruct (s <=? e); [|discriminate].
  intros H. exact (run_tasks_state header get_logs sc ch _ _ _ _ _ _ _ H (fun k Hk => False_ind _ Hk)).
Qed.

Lemma process_events_first_bad {E : Type} (header : Z -> option Z) :
  forall good bad rest c st,
  cache_ok header c ->
  (forall ev, In ev good -> logIndex ev <> None /\ header (blockNumber ev) <> None) ->
  logIndex bad = None \/ header (blockNumber bad) = None ->
  process_events (E:=E) header c st (good ++ bad :: rest) =
    inl (match logIndex bad with None => ErrPendingBlock | Some _ => ErrIsoformatNone end).
Proof.
  induction good as [|ev good IH]; intros bad rest c st Hc Hgood Hbad.
  - simpl. destruct (logIndex bad) as [li|] eqn:Hli; [|reflexivity].
    destruct (get_block_when header c (blockNumber bad)) as [w c1] eqn:Hg.
    destruct (get_block_when_spec header c (blockNumber bad) w c1 Hc Hg) as (Hw & _).
    destruct Hbad as [Hb|Hb]; [discriminate|]. rewrite Hw, Hb. reflexivity.
  - cbn [app process_events].
    destruct (Hgood ev (or_introl eq_refl)) as [Hli Hh].
    destruct (logIndex ev) as [li|] eqn:Hli'; [|congruence].
    destruct (get_block_when header c (blockNumber ev)) as [w c1] eqn:Hg.
    destruct (get_block_when_spec header c (blockNumber ev) w c1 Hc Hg) as (Hw & Hc1 & _).
    destruct w as [when|]; [|congruence].
    destruct (process_event (E:=E) st (Some when) ev) as [err|[st1 k1]] eqn:Hp; [discriminate|].
    rewrite (IH bad rest c1 st1 Hc1 (fun e He => Hgood e (or_intror He)) Hbad). reflexivity.
Qed.

(** ** Chunk ranges *)

Lemma ascending_snoc : forall l x, ascending l -> (forall z, In z l -> z < x) ->
  ascending (l ++ [x]).
Proof.
  induction l as [|a l IH]; intros x Hl Hlt; [exact I|].
  destruct l as [|b l'].
  - simpl. split; [apply Hlt; left; reflexivity | exact I].
  - destruct Hl as [Hab Hl]. change (a < b /\ ascending ((b :: l') ++ [x])).
    split; [exact Hab|]. apply IH; [exact Hl|]. intros z Hz. apply Hlt. right. exact Hz.
Qed.

Lemma chunks_ok_weaken lo hi hi' cs : chunks_ok lo hi cs -> hi <= hi' -> chunks_ok lo hi' cs.
Proof.
  intros [Ha Hin] Hle. split; [exact Ha|]. intros a b Hab. specialize (Hin a b Hab). lia.
Qed.

Lemma chunks_ok_snoc lo hi cs x y :
  chunks_ok lo hi cs -> (forall a b, In (a, b) cs -> a < x) -> lo <= x <= hi -> x <= y ->
  chunks_ok lo hi (cs ++ [(x, y)]).
Proof.
  intros [Ha Hin] Hlt Hx Hxy. split.
  - rewrite map_app. apply ascending_snoc; [exact Ha|].
    intros z Hz. apply in_map_iff in Hz as ([a b] & <- & Hab). exact (Hlt a b Hab).
  - intros a b Hab. apply in_app_or in Hab as [Hab|[Heq|[]]].
    + exact (Hin a b Hab).
    + injection Heq as -> ->. lia.
Qed.

Lemma estimate_next_chunk_size_range sc ch n r :
  min_scan_chunk_size sc <= max_scan_chunk_size sc ->
  estimate_next_chunk_size sc ch n = Some r ->
  min_scan_chunk_size sc <= r <= max_scan_chunk_size sc.
Proof.
  intros Hle. unfold estimate_next_chunk_size.
  destruct (Nat.ltb 0 n);
    [| destruct (float_of_int ch) as [f|]; [destruct (fmul2 f)|]];
    unfold py_max, py_min, py_lt, py_int; simpl;
    repeat match goal with
           | |- context [?a <? ?b] =>
               let H := fresh in destruct (a <? b) eqn:H;
               [apply Z.ltb_lt in H | apply Z.ltb_ge in H]
           end; simpl; intros Hr; try discriminate; injection Hr as <-; lia.
Qed.

Lemma next_chunk_size_nonneg sc ch n r :
  0 <= min_scan_chunk_size sc -> min_scan_chunk_size sc <= max_scan_chunk_size sc ->
  estimate_next_chunk_size sc ch n = Some r ->
  0 <= (if r <=? MAX_CHUNK_SIZE then r else MAX_CHUNK_SIZE).
Proof.
  intros H0 H1 He. pose proof (estimate_next_chunk_size_range sc ch n r H1 He).
  unfold MAX_CHUNK_SIZE. destruct (r <=? 1000); lia.
Qed.

Lemma asinc_scan_chunks {E : Type} (header : Z -> option Z)
    (get_logs : nat -> Z -> Z -> fetch_result (list raw_log) E) sc lo :
  0 <= min_scan_chunk_size sc -> min_scan_chunk_size sc <= max_scan_chunk_size sc ->
  forall fuel st ps cs cur stop ch st' ps' cs',
  asinc_scan header get_logs fuel sc st ps cs cur stop ch = ScanOk st' ps' cs' ->
  0 <= ch -> lo <= cur -> chunks_ok lo stop cs -> (forall a b, In (a, b) cs -> a < cur) ->
  chunks_ok lo stop cs'.
Proof.
  intros Hmin Hmax.
  induction fuel as [|fuel IH]; intros st ps cs cur stop ch st' ps' cs' H Hch Hlo Hok Hlt;
    [discriminate|].
  cbn [asinc_scan] in H. destruct (cur <=? stop) eqn:Hcur.
  - apply Z.leb_le in Hcur.
    destruct (scan_chunk header get_logs sc st cur (cur + ch)) as [err|[[[x ts] ks] st1]] eqn:Hc;
      [discriminate|].
    destruct (scan_chunk_spec header get_logs sc st cur (cur + ch) x ts ks st1 Hc)
      as ((k & ->) & _).
    pose proof (shrunk_bounds cur (cur + ch) k ltac:(lia)) as Hx.
    destruct (estimate_next_chunk_size sc ch (length ks)) as [ch'|] eqn:Hest; [|discriminate].
    eapply IH; [exact H | eapply next_chunk_size_nonneg; eassumption | lia | |].
    + apply chunks_ok_snoc; [exact Hok | exact Hlt | lia | lia].
    + intros a b Hab. apply in_app_or in Hab as [Hab|[Heq|[]]].
      * specialize (Hlt a b Hab). lia.
      * injection Heq as <- <-. lia.
  - injection H as <- <- <-. exact Hok.
Qed.

Lemma run_tasks_chunks {E : Type} (header : Z -> option Z)
    (get_logs : nat -> Z -> Z -> fetch_result (list raw_log) E) sc lo e ch :
  0 <= min_scan_chunk_size sc -> min_scan_chunk_size sc <= max_scan_chunk_size sc ->
  0 <= ch ->
  forall segs c st ps cs st' ps' cs',
  partition_ok segs c e ->
  run_tasks header get_logs sc st ps cs segs ch = ScanOk st' ps' cs' ->
  lo <= c -> chunks_ok lo (c - 1) cs -> chunks_ok lo e cs'.
Proof.
  intros Hmin Hmax Hch.
  induction segs as [|[a b] rest IH]; intros c st ps cs st' ps' cs' Hp H Hlo Hok;
    [contradiction|].
  cbn [run_tasks] in H.
  destruct (asinc_scan header get_logs (Z.to_nat (b - a) + 1) sc st ps cs a b ch)
    as [st1 ps1 cs1| |] eqn:Ha; try discriminate.
  destruct rest as [|p rest'].
  - simpl in Hp. destruct Hp as (-> & -> & Hw).
    injection H as <- <- <-.
    eapply asinc_scan_chunks; [exact Hmin | exact Hmax | exact Ha | exact Hch | exact Hlo | |].
    + apply (chunks_ok_weaken _ _ _ _ Hok). lia.
    + intros a' b' Hab. destruct Hok as [_ Hin]. specialize (Hin a' b' Hab). lia.
  - change (a = c /\ b - a + 1 = MAX_CHUNK_SIZE /\ partition_ok (p :: rest') (b + 1) e) in Hp.
    destruct Hp as (-> & Hw & Hrest). unfold MAX_CHUNK_SIZE in Hw.
    apply (IH (b + 1) st1 ps1 cs1 st' ps' cs' Hrest H); [lia|].
    replace (b + 1 - 1) with b by lia.
    eapply asinc_scan_chunks; [exact Hmin | exact Hmax | exact Ha | exact Hch | exact Hlo | |].
    + apply (chunks_ok_weaken _ _ _ _ Hok). lia.
    + intros a' b' Hab. destruct Hok as [_ Hin]. specialize (Hin a' b' Hab). lia.
Qed.

Lemma scan_chunks {E : Type} (header : Z -> option Z)
    (get_logs : nat -> Z -> Z -> fetch_result (list raw_log) E) sc st s e ch st' ps cs :
  0 <= min_scan_chunk_size sc -> min_scan_chunk_size sc <= max_scan_chunk_size sc ->
  0 <= ch ->
  scan header get_logs sc st s e ch = ScanOk st' ps cs -> chunks_ok s e cs.
Proof.
  intros Hmin Hmax Hch. unfold scan. destruct (s <=? e) eqn:Hse; [|discriminate].
  apply Z.leb_le in Hse. intros H.
  assert (Hok : partition_ok (task_segments s e) s e).
  { unfold task_segments. apply segments_loop_partition; [exact Hse|].
    unfold MAX_CHUNK_SIZE. rewrite Nat2Z.inj_add, Z2Nat.id by lia. simpl. lia. }
  eapply run_tasks_chunks; [exact Hmin | exact Hmax | exact Hch | exact Hok | exact H | lia |].
  split; [exact I | intros a b []].
Qed.

(** ** Stored entries *)

Lemma map_fmap_eq {X Y : Type} (f : X -> Y) (l : list X) : map f l = f <$> l.
Proof. induction l as [|x l IH]; simpl; [reflexivity|]. rewrite IH. reflexivity. Qed.

(** Flattening lists whose keys are tagged with distinct outer keys keeps
    the keys distinct. *)
Lemma NoDup_flat_map_keyed {K V X Y : Type} (F : K -> V -> list X) (h : X -> Y) (g : Y -> K) :
  (forall k v x, In x (F k v) -> g (h x) = k) ->
  (forall k v, NoDup (map h (F k v))) ->
  forall l : list (K * V), NoDup (map fst l) ->
  NoDup (map h (flat_map (fun kv => F (fst kv) (snd kv)) l)).
Proof.
  intros Hg HF l. induction l as [|[k v] l IH]; simpl; intros Hl; [constructor|].
  apply NoDup_cons in Hl as [Hk Hl].
  rewrite map_app. apply NoDup_app. split; [apply HF|]. split; [|apply IH, Hl].
  intros y Hy1 Hy2. apply list_elem_of_In, in_map_iff in Hy1 as (x1 & <- & Hx1).
  apply list_elem_of_In, in_map_iff in Hy2 as (x2 & Hx & Hx2).
  apply in_flat_map in Hx2 as ([k' v'] & Hkv & Hx2). simpl in Hx2.
  apply Hk, list_elem_of_In, in_map_iff. exists (k', v'). split; [|exact Hkv].
  simpl. rewrite <- (Hg _ _ _ Hx2), <- (Hg _ _ _ Hx1), Hx. reflexivity.
Qed.

Lemma NoDup_map_tag {V : Type} (b : Z) (tx : string) (l : list (option Z * V)) :
  NoDup (map fst l) ->
  NoDup (map fst (map (fun lt : option Z * V => ((b, tx, fst lt), snd lt)) l)).
Proof.
  induction l as [|[li t] l IH]; simpl; intros Hl; [constructor|].
  apply NoDup_cons in Hl as [Hk Hl]. apply NoDup_cons. split; [|apply IH, Hl].
  intros Hin. apply Hk. apply list_elem_of_In in Hin. apply list_elem_of_In.
  rewrite map_map in Hin. simpl in Hin. apply in_map_iff in Hin as ([li' t'] & Heq & Hin).
  simpl in Heq. injection Heq as Heq. subst. apply in_map_iff.
  eexists; split; [|exact Hin]. reflexivity.
Qed.

Lemma NoDup_fst_map_to_list_map {K V : Type} `{Countable K} (m : gmap K V) :
  NoDup (map fst (map_to_list m)).
Proof. rewrite map_fmap_eq. apply NoDup_fst_map_to_list. Qed.

Lemma entries_of_keys_distinct (bl : gmap Z (gmap string (gmap (option Z) transfer))) :
  NoDup (map fst (entries_of bl)).
Proof.
  unfold entries_of.
  apply (NoDup_flat_map_keyed
    (fun (b : Z) (txs : gmap string (gmap (option Z) transfer)) =>
       flat_map (fun te : string * gmap (option Z) transfer =>
         map (fun lt : option Z * transfer => ((b, fst te, fst lt), snd lt))
           (map_to_list (snd te))) (map_to_list txs))
    fst (fun k : event_key => fst (fst k))).
  - intros b txs x Hx. apply in_flat_map in Hx as ([tx evs] & _ & Hx).
    apply in_map_iff in Hx as ([li t] & <- & _). reflexivity.
  - intros b txs.
    apply (NoDup_flat_map_keyed
      (fun (tx : string) (evs : gmap (option Z) transfer) =>
         map (fun lt : option Z * transfer => ((b, tx, fst lt), snd lt))
           (map_to_list evs))
      fst (fun k : event_key => snd (fst k))).
    + intros tx evs x Hx. apply in_map_iff in Hx as ([li t] & <- & _). reflexivity.
    + intros tx evs. apply NoDup_map_tag, NoDup_fst_map_to_list_map.
    + apply NoDup_fst_map_to_list_map.
  - apply NoDup_fst_map_to_list_map.
Qed.

Lemma entries_of_stored (st : JSONifiedState) (k : event_key) (tr : transfer) :
  In (k, tr) (entries_of (blocks st)) <-> stored st k = Some tr.
Proof.
  destruct k as [[b tx] li]. unfold entries_of, stored. split.
  - intros H. apply in_flat_map in H as ([b' txs] & Hb & H).
    apply in_flat_map in H as ([tx' evs] & Htx & H).
    apply in_map_iff in H as ([li' tr'] & Heq & Hli). simpl in Heq.
    injection Heq as <- <- <- <-.
    apply list_elem_of_In, elem_of_map_to_list in Hb, Htx, Hli. simpl in Htx, Hli.
    rewrite Hb, Htx. exact Hli.
  - intros Hs.
    destruct (blocks st !! b) as [txs|] eqn:Hb; [|discriminate].
    destruct (txs !! tx) as [evs|] eqn:Htx; [|discriminate].
    apply in_flat_map. exists (b, txs).
    split; [apply list_elem_of_In, elem_of_map_to_list; exact Hb|].
    apply in_flat_map. exists (tx, evs).
    split; [apply list_elem_of_In, elem_of_map_to_list; exact Htx|].
    apply in_map_iff. exists (li, tr).
    split; [reflexivity|]. apply list_elem_of_In, elem_of_map_to_list. exact Hs.
Qed.

Lemma records_of_state_entries (bl : gmap Z (gmap string (gmap (option Z) transfer))) :
  records_of_state bl = map record_of (entries_of bl).
Proof.
  unfold records_of_state, entries_of. induction (map_to_list bl) as [|[b txs] l IH];
    simpl; [reflexivity|].
  rewrite map_app, IH. f_equal.
  induction (map_to_list txs) as [|[tx evs] l' IH']; simpl; [reflexivity|].
  rewrite map_app, IH'. f_equal. rewrite map_map.
  apply map_ext. intros [li t]. reflexivity.
Qed.

(** ** Balance replay *)

Lemma replay_events (t : string) (b : Z) (data : blocks_json) :
  replay t b data = fold_left (step t) (events_of data) b.
Proof.
  unfold replay, events_of. revert b.
  induction data as [|[bn txs] data IH]; intros b; [reflexivity|].
  simpl. rewrite fold_left_app, <- IH. f_equal. clear IH. revert b.
  induction txs as [|[tx evs] txs IH]; intros b; [reflexivity|].
  simpl. rewrite fold_left_app, <- IH. f_equal. clear IH. revert b.
  induction evs as [|[n ev] evs IH]; intros b; [reflexivity|]. simpl. apply IH.
Qed.

Lemma fold_step (t : string) :
  forall evs b, fold_left (step t) evs b = b + incoming t evs - outgoing t evs.
Proof.
  induction evs as [|ev evs IH]; intros b; simpl; [lia|].
  rewrite IH. unfold step.
  destruct (String.eqb (ev_from ev) t), (String.eqb (ev_to ev) t); lia.
Qed.

Lemma flows_permutation (t : string) (l1 l2 : list event_json) :
  Permutation l1 l2 -> incoming t l1 = incoming t l2 /\ outgoing t l1 = outgoing t l2.
Proof. induction 1; simpl; lia. Qed.

(** ** Extra properties *)

(** [_retry_web3_call] calls the node at most [retries] times, and it
    falls through to Python's implicit [None] exactly when
    [retries = 0]. *)
Theorem retry_web3_call_call_budget {A E D : Type} (func : nat -> Z -> Z -> fetch_result A E)
    (s e : Z) (retries : nat) (delay : D) :
  (count_calls (snd (retry_web3_call func s e retries delay)) <= retries)%nat /\
  (fst (retry_web3_call func s e retries delay) = RetNone <-> retries = O).
Proof.
  split; [apply retry_loop_calls_le|]. split.
  - intros H. destruct retries as [|r]; [reflexivity|].
    exfalso. exact (retry_loop_not_none func s (S r) delay (S r) O e ltac:(lia) ltac:(lia) H).
  - intros ->. reflexivity.
Qed.

(** [scan_chunk] on [[s, e]] with [s <= e] returns an end block inside
    [[s, e]] (the retry loop only shrinks the range), and the timestamp
    it returns for that block is the node's header timestamp. *)
Theorem scan_chunk_end_in_range {E : Type} (header : Z -> option Z)
    (get_logs : nat -> Z -> Z -> fetch_result (list raw_log) E) sc st s e x ts ks st' :
  s <= e ->
  scan_chunk header get_logs sc st s e = inr (x, ts, ks, st') ->
  s <= x <= e /\ ts = header x.
Proof.
  intros Hse H.
  destruct (scan_chunk_spec header get_logs sc st s e x ts ks st' H) as ((k & ->) & Hts & _).
  split; [apply shrunk_bounds; exact Hse | exact Hts].
Qed.

(** A node answering ranges of at most 300 blocks: the chunk
    [[1000, 1999]] shrinks to [[1000, 1249]]. *)
Lemma scan_chunk_end_in_range_witness :
  exists x ts ks st',
    scan_chunk (headers_upto 5000) (width_oracle 300 [] tt) run_scanner (restore (Some 1000))
      1000 1999 = inr (x, ts, ks, st') /\
    1000 <= x <= 1999 /\ ts = headers_upto 5000 x.
Proof.
  destruct (scan_chunk (headers_upto 5000) (width_oracle 300 [] tt) run_scanner
              (restore (Some 1000)) 1000 1999) as [err|[[[x ts] ks] st']] eqn:H;
    [vm_compute in H; discriminate|].
  exists x, ts, ks, st'. split; [reflexivity|].
  exact (scan_chunk_end_in_range (headers_upto 5000) (width_oracle 300 [] tt) run_scanner
           (restore (Some 1000)) 1000 1999 x ts ks st' ltac:(lia) H).
Defined.

(** [get_block_when] over a cache holding only node answers returns the
    node's answer for [n], keeps the cache consistent, never overwrites
    a cached block, and answers a second query for [n] from the cache
    without consulting the node. *)
Theorem get_block_when_cached (header : Z -> option Z) c n w c' :
  cache_ok header c ->
  get_block_when header c n = (w, c') ->
  w = header n /\ cache_ok header c' /\
  (forall m v, c !! m = Some v -> c' !! m = Some v) /\
  (forall header' : Z -> option Z, get_block_when header' c' n = (w, c')).
Proof.
  intros Hc H.
  destruct (get_block_when_spec header c n w c' Hc H) as (Hw & Hc' & Hmono).
  split; [exact Hw|]. split; [exact Hc'|]. split; [exact Hmono|].
  intros header'. unfold get_block_when in *.
  destruct (c !! n) as [w0|] eqn:Hn.
  - injection H as <- <-. rewrite Hn. reflexivity.
  - injection H as <- <-. rewrite lookup_insert_eq. reflexivity.
Qed.

(** Starting from the empty cache of a [scan_chunk] call. *)
Lemma get_block_when_cached_witness :
  cache_ok (headers_upto 100) ∅ /\
  get_block_when (headers_upto 100) ∅ 5 = (Some 60, {[5 := Some 60]}) /\
  get_block_when (fun _ => None) {[5 := Some 60]} 5 = (Some 60, {[5 := Some 60]}).
Proof.
  assert (Hc : cache_ok (headers_upto 100) ∅) by apply cache_ok_empty.
  assert (Hg : get_block_when (headers_upto 100) ∅ 5 = (Some 60, {[5 := Some 60]}))
    by reflexivity.
  split; [exact Hc|]. split; [exact Hg|].
  exact (proj2 (proj2 (proj2 (get_block_when_cached (headers_upto 100) ∅ 5 _ _ Hc Hg)))
           (fun _ => None)).
Defined.

(** [process_event] writes exactly one entry: a successful call returns
    the key [(block_number, txhash, log_index)] of the event, the entry
    at that key is then the event's transfer with the given timestamp,
    every other key keeps its entry, and [last_scanned_block] is
    unchanged. *)
Theorem process_event_insert_lookup {E : Type} st w ev st' k :
  process_event (E:=E) st w ev = inr (st', k) ->
  exists when, w = Some when /\ k = key_of ev /\
    last_scanned_block st' = last_scanned_block st /\
    stored st' k = Some {| t_from := arg_from ev; t_to := arg_to ev;
                           t_value := arg_value ev; t_timestamp := when |} /\
    (forall k', k' <> k -> stored st' k' = stored st k').
Proof. apply process_event_spec. Qed.

(** A second transfer of the same transaction, with another log index. *)
Lemma process_event_insert_lookup_witness :
  exists st' k,
    process_event (E:=unit)
      {| last_scanned_block := 7;
         blocks := {[1 := {["0xab" := {[Some 3 := {| t_from := "a"; t_to := "b";
                                                       t_value := 1; t_timestamp := 12 |}]}]}]} |}
      (Some 12) (transfer_log 1 "0xab" 4 9) = inr (st', k) /\
    stored st' (1, "0xab", Some 3) = Some {| t_from := "a"; t_to := "b"; t_value := 1; t_timestamp := 12 |} /\
    stored st' (1, "0xab", Some 4) = Some {| t_from := "0x7B95"; t_to := "0x94E6"; t_value := 9; t_timestamp := 12 |}.
Proof.
  eexists. eexists. split; [reflexivity|].
  match goal with |- context [stored ?s _] =>
    destruct (process_event_insert_lookup (E:=unit) _ (Some 12) (transfer_log 1 "0xab" 4 9) s
                (1, "0xab", Some 4) eq_refl) as (when & Hw & Hk & _ & Hnew & Hframe)
  end.
  injection Hw as <-. split; [rewrite Hframe; [reflexivity | discriminate] | exact Hnew].
Defined.

(** The event loop of [scan_chunk] (over a consistent timestamp cache)
    succeeds exactly when every event has a log index (is not pending)
    and the node has a header for its block.  Otherwise the first event
    that breaks this decides the exception: the [AssertionError] on a
    pending log if its log index is [None], else the [AttributeError] of
    [None.isoformat()]. *)
Theorem process_events_accepts_iff {E : Type} (header : Z -> option Z) c st evs :
  cache_ok header c ->
  ((exists c' st' ks, process_events (E:=E) header c st evs = inr (c', st', ks)) <->
   (forall ev, In ev evs -> logIndex ev <> None /\ header (blockNumber ev) <> None)) /\
  (forall good bad rest, evs = good ++ bad :: rest ->
   (forall ev, In ev good -> logIndex ev <> None /\ header (blockNumber ev) <> None) ->
   logIndex bad = None \/ header (blockNumber bad) = None ->
   process_events (E:=E) header c st evs =
     inl (match logIndex bad with None => ErrPendingBlock | Some _ => ErrIsoformatNone end)).
Proof.
  intros Hc. split; [split|].
  - intros (c' & st' & ks & H).
    exact (proj2 (proj2 (proj2 (proj2 (proj2 (proj2 (process_events_spec header evs c st c' st' ks Hc H))))))).
  - intros Hgood. destruct (process_events_total (E:=E) header evs c st Hc Hgood) as (c' & st' & H).
    exists c', st', (map key_of evs). exact H.
  - intros good bad rest -> Hgood Hbad. exact (process_events_first_bad header good bad rest c st Hc Hgood Hbad).
Qed.

(** A pending log after a good one raises the [AssertionError]. *)
Lemma process_events_accepts_iff_witness :
  cache_ok (headers_upto 100) ∅ /\
  process_events (E:=unit) (headers_upto 100) ∅ (restore None)
    [transfer_log 5 "0xab" 0 1;
     {| blockNumber := 6; transactionHash := "0xcd"; transactionIndex := 0;
        logIndex := None; arg_from := "a"; arg_to := "b"; arg_value := 2 |}]
  = inl ErrPendingBlock.
Proof.
  assert (Hc : cache_ok (headers_upto 100) ∅) by apply cache_ok_empty.
  split; [exact Hc|].
  apply (proj2 (process_events_accepts_iff (E:=unit) (headers_upto 100) ∅ (restore None) _ Hc)
           [transfer_log 5 "0xab" 0 1]
           {| blockNumber := 6; transactionHash := "0xcd"; transactionIndex := 0;
              logIndex := None; arg_from := "a"; arg_to := "b"; arg_value := 2 |} []
           eq_refl); [| left; reflexivity].
  intros ev [<-|[]]. split; discriminate.
Defined.

(** After the event loop succeeds, the keys it returns are the events'
    keys in order, every event has an entry in the state, and
    [last_scanned_block] is unchanged. *)
Theorem process_events_keys_stored {E : Type} (header : Z -> option Z) c st evs c' st' ks :
  cache_ok header c ->
  process_events (E:=E) header c st evs = inr (c', st', ks) ->
  ks = map key_of evs /\
  (forall ev, In ev evs -> stored st' (key_of ev) <> None) /\
  last_scanned_block st' = last_scanned_block st.
Proof.
  intros Hc H.
  destruct (process_events_spec header evs c st c' st' ks Hc H)
    as (_ & Hks & Hlast & _ & _ & Hin & _).
  auto.
Qed.

(** Two transfers with the same key: both are stored under it. *)
Lemma process_events_keys_stored_witness :
  exists c' st' ks,
    process_events (E:=unit) (headers_upto 100) ∅ (restore None)
      [transfer_log 5 "0xab" 0 1; transfer_log 5 "0xab" 0 2] = inr (c', st', ks) /\
    ks = [(5, "0xab", Some 0); (5, "0xab", Some 0)] /\
    stored st' (5, "0xab", Some 0) <> None.
Proof.
  do 3 eexists. split; [reflexivity|].
  match goal with |- _ /\ stored ?s _ <> None =>
    destruct (process_events_keys_stored (E:=unit) (headers_upto 100) ∅ (restore None)
                [transfer_log 5 "0xab" 0 1; transfer_log 5 "0xab" 0 2] _ s _
                (cache_ok_empty _) eq_refl) as (Hks & Hin & _)
  end.
  split; [exact Hks | exact (Hin _ (or_introl eq_refl))].
Defined.

(** A scan never moves the cursor and never drops an entry:
    [last_scanned_block] is unchanged (the [end_chunk] coroutine is never
    awaited), every entry present before is still present, and every key
    the scan reports in [all_processed] has an entry in the final
    state. *)
Theorem scan_keeps_cursor {E : Type} (header : Z -> option Z)
    (get_logs : nat -> Z -> Z -> fetch_result (list raw_log) E) sc st s e ch st' ps cs :
  scan header get_logs sc st s e ch = ScanOk st' ps cs ->
  last_scanned_block st' = last_scanned_block st /\
  (forall k, stored st k <> None -> stored st' k <> None) /\
  (forall k, In k ps -> stored st' k <> None).
Proof.
  intros H. destruct (scan_state header get_logs sc st s e ch st' ps cs H)
    as ((Hlast & _ & Hmono) & Hps).
  auto.
Qed.

(** The scan [filter.run] starts on the node with a [Transfer] in block
    1100. *)
Lemma scan_keeps_cursor_witness :
  exists st' ps cs,
    scan (headers_upto 1100) (chain_get_logs (E:=unit) 1100 [transfer_log 1100 "0xab" 3 7]) run_scanner
      (restore (Some 1000)) 1000 6001 20 = ScanOk st' ps cs /\
    last_scanned_block st' = 1000 /\ (forall k, In k ps -> stored st' k <> None).
Proof.
  destruct (scan (headers_upto 1100) (chain_get_logs (E:=unit) 1100 [transfer_log 1100 "0xab" 3 7])
              run_scanner (restore (Some 1000)) 1000 6001 20) as [st' ps cs| |] eqn:H;
    [| vm_compute in H; discriminate ..].
  exists st', ps, cs. split; [reflexivity|].
  destruct (scan_keeps_cursor (headers_upto 1100)
              (chain_get_logs (E:=unit) 1100 [transfer_log 1100 "0xab" 3 7]) run_scanner
              (restore (Some 1000)) 1000 6001 20 st' ps cs H) as (Hlast & _ & Hps).
  split; [exact Hlast | exact Hps].
Defined.

Lemma timestamps_ok_restore (header : Z -> option Z) (stored_block : option Z) :
  timestamps_ok header (restore stored_block).
Proof. intros b tx li tr Hs. simpl in Hs. rewrite lookup_empty in Hs. discriminate. Qed.

(** Every entry a scan stores carries the header timestamp of its own
    block: if the state satisfied this before the scan, it does after. *)
Theorem scan_timestamps_from_headers {E : Type} (header : Z -> option Z)
    (get_logs : nat -> Z -> Z -> fetch_result (list raw_log) E) sc st s e ch st' ps cs :
  timestamps_ok header st ->
  scan header get_logs sc st s e ch = ScanOk st' ps cs ->
  timestamps_ok header st'.
Proof.
  intros Hts H. destruct (scan_state header get_logs sc st s e ch st' ps cs H)
    as ((_ & Hts' & _) & _).
  exact (Hts' Hts).
Qed.

(** The transfer of block 1100 is stored with the timestamp 13200. *)
Lemma scan_timestamps_from_headers_witness :
  exists st' ps cs,
    scan (headers_upto 1100) (chain_get_logs (E:=unit) 1100 [transfer_log 1100 "0xab" 3 7]) run_scanner
      (restore (Some 1000)) 1000 6001 20 = ScanOk st' ps cs /\
    timestamps_ok (headers_upto 1100) st'.
Proof.
  destruct (scan (headers_upto 1100) (chain_get_logs (E:=unit) 1100 [transfer_log 1100 "0xab" 3 7])
              run_scanner (restore (Some 1000)) 1000 6001 20) as [st' ps cs| |] eqn:H;
    [| vm_compute in H; discriminate ..].
  exists st', ps, cs. split; [reflexivity|].
  exact (scan_timestamps_from_headers (headers_upto 1100)
           (chain_get_logs (E:=unit) 1100 [transfer_log 1100 "0xab" 3 7]) run_scanner
           (restore (Some 1000)) 1000 6001 20 st' ps cs
           (timestamps_ok_restore _ _) H).
Defined.

(** One segment task [asincScan(start_b, end_b, chunk_size)]: for a
    scanner with [0 <= min_scan_chunk_size <= max_scan_chunk_size] and a
    non-negative starting chunk size, the chunk ranges a task that
    completes passes to [scan_chunk] start at strictly increasing heights,
    all inside [[start_b, end_b]], and each range [(from, to)] has
    [from <= to].  The statement holds for every state and every
    [all_processed] list the task starts from: the task's own sequence of
    ranges depends only on its locals and on the node's answers, not on
    what the other tasks of [asyncio.gather] wrote in between. *)
Theorem asinc_scan_chunks_ascending {E : Type} (header : Z -> option Z)
    (get_logs : nat -> Z -> Z -> fetch_result (list raw_log) E) sc fuel st ps
    start_b end_b chunk_size st' ps' cs :
  0 <= min_scan_chunk_size sc -> min_scan_chunk_size sc <= max_scan_chunk_size sc ->
  0 <= chunk_size ->
  asinc_scan header get_logs fuel sc st ps [] start_b end_b chunk_size = ScanOk st' ps' cs ->
  ascending (map fst cs) /\ (forall a b, In (a, b) cs -> start_b <= a <= end_b /\ a <= b).
Proof.
  intros Hmin Hmax Hch H.
  exact (asinc_scan_chunks header get_logs sc start_b Hmin Hmax fuel st ps [] start_b end_b
           chunk_size st' ps' cs H Hch (Z.le_refl _)
           (conj I (fun a b (Hin : In (a, b) []) => match Hin with end))
           (fun a b (Hin : In (a, b) []) => match Hin with end)).
Qed.

(** The task on [[1000, 3500]] against a node answering at most 300
    blocks per query. *)
Lemma asinc_scan_chunks_ascending_witness :
  exists st' ps cs,
    asinc_scan (headers_upto 5000) (width_oracle 300 [transfer_log 1100 "0xab" 3 7] tt) 2501
      run_scanner (restore (Some 1000)) [] [] 1000 3500 20 = ScanOk st' ps cs /\
    ascending (map fst cs) /\ (forall a b, In (a, b) cs -> 1000 <= a <= 3500 /\ a <= b).
Proof.
  destruct (asinc_scan (headers_upto 5000) (width_oracle 300 [transfer_log 1100 "0xab" 3 7] tt)
              2501 run_scanner (restore (Some 1000)) [] [] 1000 3500 20) as [st' ps cs| |] eqn:H;
    [| vm_compute in H; discriminate ..].
  exists st', ps, cs. split; [reflexivity|].
  apply (asinc_scan_chunks_ascending (headers_upto 5000)
           (width_oracle 300 [transfer_log 1100 "0xab" 3 7] tt) run_scanner 2501
           (restore (Some 1000)) [] 1000 3500 20 st' ps cs); [vm_compute; discriminate ..| exact H].
Defined.

(** When the has-code predicate is monotone and the creation block [c]
    lies in [[lo, hi)], [get_contract_creation_block] returns [c] within
    [log2_up (hi - lo) + 1] nested calls. *)
Theorem creation_block_found (p : Z -> bool) (c lo hi : Z) (fuel count : nat) :
  monotone p -> p (c - 1) = false -> p c = true -> lo <= c < hi ->
  (Z.to_nat (Z.log2_up (hi - lo)) < fuel)%nat ->
  get_contract_creation_block fuel p lo hi count = Some c.
Proof.
  intros Hmono Hc1 Hc Hin Hfuel.
  apply (locator_finds_below_hi p c Hmono Hc1 Hc (Z.to_nat (Z.log2_up (hi - lo))));
    [exact Hin | | exact Hfuel].
  rewrite Z2Nat.id by apply Z.log2_up_nonneg.
  destruct (Z.eq_dec (hi - lo) 1) as [Heq|Hne]; [rewrite Heq; reflexivity|].
  apply Z.log2_up_spec. lia.
Qed.

(** The search [run] makes on [[1, 1100]] for a contract deployed at
    block 500: 12 nested calls suffice. *)
Lemma creation_block_found_witness :
  get_contract_creation_block 12 (code_from 500) 1 1100 0 = Some 500.
Proof.
  apply creation_block_found; [apply code_from_monotone | reflexivity | reflexivity | lia |].
  vm_compute. lia.
Defined.

(** The documents [run] inserts are one per stored entry: the list of
    documents is [record_of] mapped over the list of stored entries, whose
    keys [(block_number, txhash, log_index)] are pairwise distinct, and an
    entry is in that list iff [state["blocks"][b][tx][li]] holds it.  So
    each stored transfer gives exactly one document, with its block,
    transaction hash, [from], [to] and [value]. *)
Theorem records_of_state_one_per_entry (st : JSONifiedState) :
  records_of_state (blocks st) = map record_of (entries_of (blocks st)) /\
  NoDup (map fst (entries_of (blocks st))) /\
  (forall k tr, In (k, tr) (entries_of (blocks st)) <-> stored st k = Some tr).
Proof.
  split; [apply records_of_state_entries|].
  split; [apply entries_of_keys_distinct|]. apply entries_of_stored.
Qed.

(** [test_parse.py] ends with the starting balance plus everything the
    target received minus everything it sent, over all events of the
    document; a transfer from the target to itself changes nothing. *)
Theorem replay_balance (addr_target : string) (start_balance : Z) (data : blocks_json) :
  replay addr_target start_balance data =
  start_balance + incoming addr_target (events_of data) - outgoing addr_target (events_of data).
Proof. rewrite replay_events. apply fold_step. Qed.

(** The final balance does not depend on the order in which the dicts
    list the events. *)
Theorem replay_order_independent (addr_target : string) (b : Z) (d1 d2 : blocks_json) :
  Permutation (events_of d1) (events_of d2) ->
  replay addr_target b d1 = replay addr_target b d2.
Proof.
  intros Hp. rewrite !replay_events, !fold_step.
  destruct (flows_permutation addr_target _ _ Hp) as [-> ->]. reflexivity.
Qed.

(** The same two transfers listed in two blocks in either order. *)
Lemma replay_order_independent_witness :
  replay "t" 0 [("1", [("x", [("0", {| ev_from := "t"; ev_to := "u"; ev_value := 5 |})])]);
                ("2", [("y", [("0", {| ev_from := "u"; ev_to := "t"; ev_value := 8 |})])])]
  = replay "t" 0 [("2", [("y", [("0", {| ev_from := "u"; ev_to := "t"; ev_value := 8 |})])]);
                  ("1", [("x", [("0", {| ev_from := "t"; ev_to := "u"; ev_value := 5 |})])])].
Proof. apply replay_order_independent. simpl. apply perm_swap. Defined.

(** A successful [filter.run] scans [[cutoff, cutoff + 5001]] from its
    cutoff block, and every chunk range [(from, to)] it queries has its
    start inside that window and [from <= to].  Which ranges are queried
    does not depend on how [asyncio.gather] interleaves the segment
    tasks, so only membership is stated, not an order across tasks. *)
Theorem run_scans_window {E : Type} (locator_fuel : nat) (c : chain E) (stored_block : option Z)
    (s e : Z) (recs : list mongo_record) (cs : list (Z * Z)) :
  run locator_fuel c stored_block = RunOk s e recs cs ->
  choose_cutoff locator_fuel (has_code c) (latest c) (restore stored_block) = Some s /\
  e = s + 5001 /\
  (forall a b, In (a, b) cs -> s <= a <= e /\ a <= b).
Proof.
  unfold run. destruct (choose_cutoff _ _ _ _) as [cutoff|] eqn:Hc; [|discriminate].
  destruct (header c cutoff), (header c (latest c - 1)); try discriminate.
  destruct (scan _ _ run_scanner _ _ _ 20) as [st' ps cs'| |] eqn:Hs; try discriminate.
  intros H. injection H as <- <- _ <-.
  split; [reflexivity|]. split; [unfold MAX_CHUNK_SIZE; lia|].
  eapply scan_chunks in Hs; [exact (proj2 Hs) | unfold run_scanner, make_scanner, MAX_CHUNK_SIZE; simpl; lia ..].
Qed.

(** The cycle of a contract with stored cursor 1000 on [tip_chain]. *)
Lemma run_scans_window_witness :
  exists recs cs, run 0 tip_chain (Some 1000) = RunOk 1000 6001 recs cs /\
    (forall a b, In (a, b) cs -> 1000 <= a <= 6001 /\ a <= b).
Proof.
  destruct (run 0 tip_chain (Some 1000)) as [s e recs cs| |] eqn:H;
    [| vm_compute in H; discriminate ..].
  destruct (run_scans_window 0 tip_chain (Some 1000) s e recs cs H) as (Hc & He & Ha).
  vm_compute in Hc. injection Hc as <-. subst e.
  exists recs, cs. split; [reflexivity | exact Ha].
Defined.
